(** * dive / filetree: file metadata, content fingerprints and diff statuses

    A shallow embedding of [filetree/data.go]: the [DiffType] enumeration
    and its [merge], [FileInfo] with [Compare], [NewFileInfo] and its
    streaming hasher [getHashFromReader], and the [Copy] methods of
    [NodeData], [ViewInfo] and [FileInfo].

    Conventions.
    - Go's [int], [int64] and [uint64] are [Z]; a conversion or an addition
      that wraps in Go is written out ([uint64]).
    - A Go [byte] is [Byte.byte]; a [[]byte] is a [list byte].
    - A Go function that can panic, or that loops until its environment lets
      it stop, returns an [outcome]: it returns a value, panics, or runs out
      of fuel. The state it works on (the reader, the heap) is threaded
      explicitly and survives a panic, as it does in Go.
    - Go maps are reference values: a map-typed field holds a reference into
      the [Store], and two structs that hold the same reference share the
      map. Structs are values: assigning one copies its fields. *)

From Stdlib Require Import ZArith.
From Stdlib.Strings Require Import Byte Ascii.
From stdpp Require Import base option list gmap strings pretty.

Local Open Scope Z_scope.

(** ** Go runtime: integers, panics, errors *)

(** [uint64(x)]: conversion to an unsigned 64-bit integer wraps. *)
Definition uint64 (x : Z) : Z := x mod 2 ^ 64.

(** What running a Go function on a state of type [S] leads to. *)
Inductive outcome (S A : Type) : Type :=
  | Returns (a : A) (s : S)
  | Panics (msg : string) (s : S)
  | OutOfFuel.
Arguments Returns {S A} a s.
Arguments Panics {S A} msg s.
Arguments OutOfFuel {S A}.

(** Computations on a state [S]: a state monad in which a panic ends the
    computation and keeps the state reached. *)
Definition M (S A : Type) : Type := S -> outcome S A.

Definition ret {S A} (a : A) : M S A := fun s => Returns a s.

Definition bind {S A B} (m : M S A) (k : A -> M S B) : M S B :=
  fun s =>
    match m s with
    | Returns a s' => k a s'
    | Panics msg s' => Panics msg s'
    | OutOfFuel => OutOfFuel
    end.

Definition panic {S A} (msg : string) : M S A := fun s => Panics msg s.

Declare Scope go_scope.
Delimit Scope go_scope with go.
Notation "x <- m ;; k" := (bind m (fun x => k))
  (at level 100, m at next level, right associativity) : go_scope.
Notation "m ;;; k" := (bind m (fun _ => k))
  (at level 100, right associativity) : go_scope.

(** A Go [error] value other than [nil]. Only [io.EOF] is told apart. *)
Inductive error : Type :=
  | io_EOF
  | other_error (msg : string).

Definition is_EOF (e : error) : bool :=
  match e with io_EOF => true | other_error _ => false end.

(** [err != nil && err != io.EOF]. *)
Definition isFatal (err : option error) : bool :=
  match err with
  | None => false
  | Some e => negb (is_EOF e)
  end.

(** [err.Error()], the text [logrus.Panic(err)] panics with. *)
Definition Error (err : option error) : string :=
  match err with
  | None => ""
  | Some io_EOF => "EOF"
  | Some (other_error msg) => msg
  end.

(** ** The heap *)

(** Addresses of heap objects. *)
Abbreviation loc := nat.

(** A Go pointer to a struct of this package: [nil], the address of a heap
    object, or the address of the [ViewInfo] or [FileInfo] field inside a
    [NodeData] object. *)
Inductive pointer : Type :=
  | Nil
  | Obj (l : loc)
  | FieldViewInfo (l : loc)
  | FieldFileInfo (l : loc).

(** The heap cell a pointer points to or into. *)
Definition cell (p : pointer) : option loc :=
  match p with
  | Nil => None
  | Obj l | FieldViewInfo l | FieldFileInfo l => Some l
  end.

(** A map value: [nil], or a reference to a map object on the heap. *)
Definition mapref : Type := option loc.

(** ** archive/tar *)

Module tar.

(** [tar.TypeDir = '5']. *)
Definition TypeDir : byte := x35.
(** [tar.TypeReg = '0']. *)
Definition TypeReg : byte := x30.
(** [tar.TypeSymlink = '2']. *)
Definition TypeSymlink : byte := x32.

(** [tar.Header] of the Go standard library. Times are instants (Unix
    nanoseconds); [Xattrs] and [PAXRecords] are maps, so references. *)
Record Header : Type := {
  Typeflag : byte;
  Name : string;
  Linkname : string;
  Size : Z;
  Mode : Z;
  Uid : Z;
  Gid : Z;
  Uname : string;
  Gname : string;
  ModTime : Z;
  AccessTime : Z;
  ChangeTime : Z;
  Devmajor : Z;
  Devminor : Z;
  Xattrs : mapref;
  PAXRecords : mapref;
  Format : Z
}.

End tar.

(** ** Data model *)

(** [type DiffType int] with its four named values. *)
Definition DiffType : Type := Z.

Definition Unchanged : DiffType := 0.
Definition Changed : DiffType := 1.
Definition Added : DiffType := 2.
Definition Removed : DiffType := 3.

(** ViewInfo contains UI specific detail for a specific FileNode. *)
Record ViewInfo : Type := {
  Collapsed : bool;
  Hidden : bool
}.

(** FileInfo contains tar metadata for a specific FileNode. *)
Record FileInfo : Type := {
  Path : string;
  TypeFlag : byte;
  hash : Z;
  TarHeader : tar.Header
}.

(** NodeData is the payload for a FileNode. *)
Record NodeData : Type := {
  nd_ViewInfo : ViewInfo;
  nd_FileInfo : FileInfo;
  nd_DiffType : DiffType
}.

(** The zero value [FileInfo{}]. *)
Definition zero_Header : tar.Header :=
  {| tar.Typeflag := x00; tar.Name := ""; tar.Linkname := ""; tar.Size := 0;
     tar.Mode := 0; tar.Uid := 0; tar.Gid := 0; tar.Uname := "";
     tar.Gname := ""; tar.ModTime := 0; tar.AccessTime := 0;
     tar.ChangeTime := 0; tar.Devmajor := 0; tar.Devminor := 0;
     tar.Xattrs := None; tar.PAXRecords := None; tar.Format := 0 |}.

Definition zero_FileInfo : FileInfo :=
  {| Path := ""; TypeFlag := x00; hash := 0; TarHeader := zero_Header |}.

(** ** DiffType.merge and FileInfo.Compare *)

(** merge two DiffTypes into a single result: the given value unless the
    two values differ, in which case there is "a change". *)
Definition merge (diff other : DiffType) : DiffType :=
  if diff =? other then diff else Changed.

(** String of a DiffType: its name, or the number in decimal for a value
    that has none. *)
Definition DiffType_String (diff : DiffType) : string :=
  if diff =? Unchanged then "Unchanged"
  else if diff =? Changed then "Changed"
  else if diff =? Added then "Added"
  else if diff =? Removed then "Removed"
  else pretty diff.

(** The fold a caller of [merge] runs over the statuses of a node's
    children, starting from a status of its own, in the order in which the
    children happen to be visited. *)
Definition mergeAll (init : DiffType) (children : list DiffType) : DiffType :=
  fold_left merge children init.

(** Compare determines the DiffType between two FileInfos based on the type
    and contents of each given FileInfo. The receiver is dereferenced. *)
Definition Compare (data other : FileInfo) : DiffType :=
  if Byte.eqb (TypeFlag data) (TypeFlag other) then
    if hash data =? hash other then Unchanged else Changed
  else Changed.

(** ** Interfaces: hash.Hash64 and io.Reader *)

(** [hash.Hash64] as [getHashFromReader] uses it: [xxhash.New()] gives a
    digest, [Write] feeds it bytes, [Sum64] reads the hash of what was fed.
    The digest is a mutable object in Go; here [Write] returns the new one. *)
Class Hash64 (D : Type) : Type := {
  New : D;
  Write : D -> list byte -> D;
  Sum64 : D -> Z
}.

(** What every [hash.Hash] promises: the hash is that of the bytes written,
    however they were cut into [Write] calls. *)
Definition Hash64_streaming (D : Type) `{Hash64 D} : Prop :=
  forall chunks : list (list byte),
    Sum64 (fold_left Write chunks New) = Sum64 (Write New (concat chunks)).

(** [io.Reader]: [Read r len] is a call [r.Read(p)] with [len(p) = len]. It
    gives the reader's next state, the bytes it put at the start of [p]
    (their number is Go's [n], so [0 <= n]) and Go's [err] ([None] is
    [nil]). A reader that keeps to the contract of [io.Reader] gives at
    most [len] bytes; the loop below panics on one that claims more. *)
Class Reader (R : Type) : Type :=
  Read : R -> Z -> R * (list byte * option error).

(** ** getHashFromReader and NewFileInfo *)

(** [var chuckSize = 2 * 1024 * 1024]. A package variable: the functions
    below take its current value as [chunk]. *)
Definition chuckSize : Z := 2 * 1024 * 1024.

Section Hasher.

Context {D : Type} `{Hash64 D} {R : Type} `{Reader R}.

(** The [for] loop of [getHashFromReader], with the digest [h] and the
    counter [bytesRead] it updates; [fuel] bounds the calls of [Read].
    A read error other than [io.EOF] panics before the bytes of that read
    are hashed; a read of no byte ends the loop; [buf[:n]] panics when the
    reader claims more bytes than the buffer holds. *)
Fixpoint hashLoop (fuel : nat) (chunk : Z) (h : D) (bytesRead : Z)
    : M R (Z * Z) :=
  match fuel with
  | O => fun _ => OutOfFuel
  | S fuel' => fun reader =>
      let '(reader', (data, err)) := Read reader chunk in
      let n := Z.of_nat (length data) in
      let bytesRead := uint64 (bytesRead + n) in
      if isFatal err then Panics (Error err) reader'
      else if n =? 0 then Returns (Sum64 h, bytesRead) reader'
      else if chunk <? n then Panics "slice bounds out of range" reader'
      else hashLoop fuel' chunk (Write h data) bytesRead reader'
  end.

(** [getHashFromReader(reader)]: the hash of what the reader delivers and
    the number of bytes it delivered. [make] panics on a negative length. *)
Definition getHashFromReader (fuel : nat) (chunk : Z) : M R (Z * Z) :=
  if chunk <? 0 then panic "makeslice: len out of range"
  else hashLoop fuel chunk New 0.

(** NewFileInfo extracts the metadata from a tar header and file contents
    and generates a new FileInfo object. [header] is the struct [*header];
    what the function prints is left out. [logrus.Panic()] panics. *)
Definition NewFileInfo (fuel : nat) (chunk : Z) (header : tar.Header)
    (path : string) : M R FileInfo :=
  if Byte.eqb (tar.Typeflag header) tar.TypeDir then
    ret {| Path := path; TypeFlag := tar.Typeflag header; hash := 0;
           TarHeader := header |}
  else
    (res <- getHashFromReader fuel chunk ;;
     let '(hash, bytesRead) := res in
     if negb (bytesRead =? uint64 (tar.Size header)) then panic ""
     else ret {| Path := path; TypeFlag := tar.Typeflag header;
                 hash := hash; TarHeader := header |})%go.

(** The reads of a run of the loop that it goes on after: starting in [r],
    the reader delivers the chunks [ds], each with at least one byte, none
    larger than the buffer, none with an error other than [io.EOF], and
    is then in state [r']. *)
Inductive reads (chunk : Z) : R -> list (list byte) -> R -> Prop :=
  | reads_done r : reads chunk r [] r
  | reads_more r r1 d e ds r' :
      Read r chunk = (r1, (d, e)) ->
      d <> [] ->
      Z.of_nat (length d) <= chunk ->
      isFatal e = false ->
      reads chunk r1 ds r' ->
      reads chunk r (d :: ds) r'.

(** The stream of [r] holds the byte sequence [S]: the reader delivers it
    in some chunks and then answers a read with no byte, and [nil] or
    [io.EOF]; it is then in state [r']. *)
Definition delivers (chunk : Z) (r : R) (S : list byte) (r' : R) : Prop :=
  exists ds r1 e,
    reads chunk r ds r1 /\ concat ds = S /\
    Read r1 chunk = (r', ([], e)) /\ isFatal e = false.

End Hasher.

(** ** The store, and the Copy methods *)

(** What a heap cell holds: a struct of this package, or a map. *)
Inductive object : Type :=
  | ObjNodeData (d : NodeData)
  | ObjViewInfo (v : ViewInfo)
  | ObjFileInfo (f : FileInfo)
  | ObjMap (m : gmap string string).

(** The heap: cell [l] is [s !! l]. Allocation appends a cell, so every
    allocation gives an address that was not in use. *)
Abbreviation Store := (list object).

Definition nil_dereference : string :=
  "invalid memory address or nil pointer dereference".

(** [*p] for [p] of type [*NodeData], [*ViewInfo], [*FileInfo]. *)
Definition get_NodeData (s : Store) (p : pointer) : option NodeData :=
  match p with
  | Obj l => match s !! l with Some (ObjNodeData d) => Some d | _ => None end
  | _ => None
  end.

Definition get_ViewInfo (s : Store) (p : pointer) : option ViewInfo :=
  match p with
  | Obj l => match s !! l with Some (ObjViewInfo v) => Some v | _ => None end
  | FieldViewInfo l => nd_ViewInfo <$> get_NodeData s (Obj l)
  | _ => None
  end.

Definition get_FileInfo (s : Store) (p : pointer) : option FileInfo :=
  match p with
  | Obj l => match s !! l with Some (ObjFileInfo f) => Some f | _ => None end
  | FieldFileInfo l => nd_FileInfo <$> get_NodeData s (Obj l)
  | _ => None
  end.

(** [*p = v]: the store after the assignment, when [p] can be assigned to. *)
Definition set_NodeData (s : Store) (p : pointer) (d : NodeData)
    : option Store :=
  match get_NodeData s p, p with
  | Some _, Obj l => Some (<[l := ObjNodeData d]> s)
  | _, _ => None
  end.

Definition set_ViewInfo (s : Store) (p : pointer) (v : ViewInfo)
    : option Store :=
  match p with
  | Obj l =>
      match s !! l with
      | Some (ObjViewInfo _) => Some (<[l := ObjViewInfo v]> s)
      | _ => None
      end
  | FieldViewInfo l =>
      match s !! l with
      | Some (ObjNodeData d) =>
          Some (<[l := ObjNodeData {| nd_ViewInfo := v;
                                      nd_FileInfo := nd_FileInfo d;
                                      nd_DiffType := nd_DiffType d |}]> s)
      | _ => None
      end
  | _ => None
  end.

Definition set_FileInfo (s : Store) (p : pointer) (f : FileInfo)
    : option Store :=
  match p with
  | Obj l =>
      match s !! l with
      | Some (ObjFileInfo _) => Some (<[l := ObjFileInfo f]> s)
      | _ => None
      end
  | FieldFileInfo l =>
      match s !! l with
      | Some (ObjNodeData d) =>
          Some (<[l := ObjNodeData {| nd_ViewInfo := nd_ViewInfo d;
                                      nd_FileInfo := f;
                                      nd_DiffType := nd_DiffType d |}]> s)
      | _ => None
      end
  | _ => None
  end.

(** The map a map value refers to; a [nil] map reads as the empty map. *)
Definition get_map (s : Store) (m : mapref) : option (gmap string string) :=
  match m with
  | None => Some ∅
  | Some l => match s !! l with Some (ObjMap g) => Some g | _ => None end
  end.

(** [v, ok := m[k]]. *)
Definition map_lookup (s : Store) (m : mapref) (k : string) : option string :=
  g ← get_map s m; g !! k.

(** Loads and stores as computations: a bad pointer panics. *)
Definition load {A} (get : Store -> pointer -> option A) (p : pointer)
    : M Store A :=
  fun s =>
    match get s p with
    | Some a => Returns a s
    | None => Panics nil_dereference s
    end.

Definition store {A} (set : Store -> pointer -> A -> option Store)
    (p : pointer) (a : A) : M Store unit :=
  fun s =>
    match set s p a with
    | Some s' => Returns tt s'
    | None => Panics nil_dereference s
    end.

(** [&T{...}] and [make(map...)]: a new cell. *)
Definition alloc (o : object) : M Store loc :=
  fun s => Returns (length s) (s ++ [o]).

(** [m[k] = v]: it writes into the map object that [m] refers to. *)
Definition map_assign (m : mapref) (k v : string) : M Store unit :=
  fun s =>
    match m with
    | None => Panics "assignment to entry in nil map" s
    | Some l =>
        match s !! l with
        | Some (ObjMap g) => Returns tt (<[l := ObjMap (<[k := v]> g)]> s)
        | _ => Panics nil_dereference s
        end
    end.

Section Copy.

(** [viper.GetBool]: the configuration of the process, read by key. *)
Variable viper_GetBool : string -> bool.

Local Open Scope go_scope.

(** NewViewInfo creates a default ViewInfo. *)
Definition NewViewInfo : M Store pointer :=
  l <- alloc (ObjViewInfo
                {| Collapsed := viper_GetBool "filetree.collapse-dir";
                   Hidden := false |}) ;;
  ret (Obj l).

(** Copy duplicates a ViewInfo. *)
Definition ViewInfo_Copy (view : pointer) : M Store pointer :=
  newView <- NewViewInfo ;;
  v <- load get_ViewInfo view ;;
  store set_ViewInfo newView v ;;;
  ret newView.

(** Copy duplicates a FileInfo. *)
Definition FileInfo_Copy (data : pointer) : M Store pointer :=
  match data with
  | Nil => ret Nil
  | _ =>
      d <- load get_FileInfo data ;;
      l <- alloc (ObjFileInfo {| Path := Path d; TypeFlag := TypeFlag d;
                                 hash := hash d;
                                 TarHeader := TarHeader d |}) ;;
      ret (Obj l)
  end.

(** Copy duplicates a NodeData. The fields of the composite literal are
    evaluated in order; [data.ViewInfo] and [data.FileInfo] are the
    addresses of the fields of [*data]. *)
Definition NodeData_Copy (data : pointer) : M Store pointer :=
  match data with
  | Obj l =>
      vp <- ViewInfo_Copy (FieldViewInfo l) ;;
      v <- load get_ViewInfo vp ;;
      fp <- FileInfo_Copy (FieldFileInfo l) ;;
      f <- load get_FileInfo fp ;;
      d <- load get_NodeData data ;;
      l' <- alloc (ObjNodeData {| nd_ViewInfo := v; nd_FileInfo := f;
                                  nd_DiffType := nd_DiffType d |}) ;;
      ret (Obj l')
  | _ => panic nil_dereference
  end.

(** NewNodeData creates an empty NodeData struct for a FileNode. *)
Definition NewNodeData : M Store pointer :=
  vp <- NewViewInfo ;;
  v <- load get_ViewInfo vp ;;
  l <- alloc (ObjNodeData {| nd_ViewInfo := v; nd_FileInfo := zero_FileInfo;
                             nd_DiffType := Unchanged |}) ;;
  ret (Obj l).

End Copy.


(** ** github.com/cespare/xxhash *)

(** XXH64 with seed 0, the hash behind [xxhash.New()]. The library is a
    dependency of the repository; this is its digest type [xxh] with [New],
    [Write] and [Sum64]. Of the 32-byte array [mem] and its fill count [n]
    the model keeps the filled part [mem[:n]]. *)
Module xxhash.

Definition prime1 : Z := 11400714785074694791.
Definition prime2 : Z := 14029467366897019727.
Definition prime3 : Z := 1609587929392839161.
Definition prime4 : Z := 9650029242287828579.
Definition prime5 : Z := 2870177450012600261.

(** [bits.RotateLeft64(x, k)]. *)
Definition rol (k x : Z) : Z :=
  uint64 (Z.lor (Z.shiftl x k) (Z.shiftr x (64 - k))).

Definition round (acc input : Z) : Z :=
  let acc := uint64 (acc + input * prime2) in
  let acc := rol 31 acc in
  uint64 (acc * prime1).

Definition mergeRound (acc val : Z) : Z :=
  let val := round 0 val in
  let acc := Z.lxor acc val in
  uint64 (acc * prime1 + prime4).

Definition byteZ (b : byte) : Z := Z.of_N (Byte.to_N b).

(** [binary.LittleEndian]: the number a byte slice spells. *)
Fixpoint littleEndian (b : list byte) : Z :=
  match b with
  | [] => 0
  | x :: b' => byteZ x + 256 * littleEndian b'
  end.

Definition u64 (b : list byte) : Z := littleEndian (take 8 b).
Definition u32 (b : list byte) : Z := littleEndian (take 4 b).

Record xxh : Type := {
  v1 : Z;
  v2 : Z;
  v3 : Z;
  v4 : Z;
  total : Z;
  mem : list byte
}.

(** [New()], that is [Reset()] on a new digest. *)
Definition New : xxh :=
  {| v1 := uint64 (prime1 + prime2); v2 := prime2; v3 := 0;
     v4 := uint64 (- prime1); total := 0; mem := [] |}.

Definition set_mem (x : xxh) (m : list byte) : xxh :=
  {| v1 := v1 x; v2 := v2 x; v3 := v3 x; v4 := v4 x; total := total x;
     mem := m |}.

Definition add_total (x : xxh) (n : Z) : xxh :=
  {| v1 := v1 x; v2 := v2 x; v3 := v3 x; v4 := v4 x; total := total x + n;
     mem := mem x |}.

(** One 32-byte block, the first 32 bytes of [b], into the accumulators. *)
Definition block (x : xxh) (b : list byte) : xxh :=
  {| v1 := round (v1 x) (u64 b);
     v2 := round (v2 x) (u64 (drop 8 b));
     v3 := round (v3 x) (u64 (drop 16 b));
     v4 := round (v4 x) (u64 (drop 24 b));
     total := total x; mem := mem x |}.

(** [writeBlocks(x, b)]: all the full blocks of [b] into the accumulators;
    what is left of [b] is returned. [k] bounds the number of blocks. *)
Fixpoint writeBlocks (k : nat) (x : xxh) (b : list byte) : xxh * list byte :=
  match k with
  | O => (x, b)
  | S k' =>
      if (32 <=? length b)%nat then writeBlocks k' (block x b) (drop 32 b)
      else (x, b)
  end.

Definition Write (x : xxh) (b : list byte) : xxh :=
  let x := add_total x (Z.of_nat (length b)) in
  let n := length (mem x) in
  if (n + length b <? 32)%nat then set_mem x (mem x ++ b)
  else
    let '(x, b) :=
      if (0 <? n)%nat then
        (set_mem (block x (mem x ++ take (32 - n) b)) [], drop (32 - n) b)
      else (x, b) in
    let '(x, b) :=
      if (32 <=? length b)%nat then writeBlocks (length b) x b else (x, b) in
    set_mem x b.

(** The loop of [Sum64] over the 8-byte words of [mem[:n]]. *)
Fixpoint sumWords (k : nat) (h : Z) (m : list byte) : Z * list byte :=
  match k with
  | O => (h, m)
  | S k' =>
      if (8 <=? length m)%nat then
        let k1 := round 0 (u64 m) in
        let h := Z.lxor h k1 in
        sumWords k' (uint64 (rol 27 h * prime1 + prime4)) (drop 8 m)
      else (h, m)
  end.

(** The body of its loop over the last bytes. *)
Definition sumByte (h : Z) (b : byte) : Z :=
  let h := Z.lxor h (uint64 (byteZ b * prime5)) in
  uint64 (rol 11 h * prime1).

Definition Sum64 (x : xxh) : Z :=
  let h :=
    if 32 <=? total x then
      let h :=
        uint64 (rol 1 (v1 x) + rol 7 (v2 x) + rol 12 (v3 x) + rol 18 (v4 x)) in
      let h := mergeRound h (v1 x) in
      let h := mergeRound h (v2 x) in
      let h := mergeRound h (v3 x) in
      mergeRound h (v4 x)
    else uint64 (v3 x + prime5) in
  let h := uint64 (h + total x) in
  let '(h, m) := sumWords (length (mem x)) h (mem x) in
  let '(h, m) :=
    if (4 <=? length m)%nat then
      let h := Z.lxor h (uint64 (u32 m * prime1)) in
      (uint64 (rol 23 h * prime2 + prime3), drop 4 m)
    else (h, m) in
  let h := fold_left sumByte m h in
  let h := Z.lxor h (Z.shiftr h 33) in
  let h := uint64 (h * prime2) in
  let h := Z.lxor h (Z.shiftr h 29) in
  let h := uint64 (h * prime3) in
  Z.lxor h (Z.shiftr h 32).

(** The digest with the accumulators of [x], the count [t] and the pending
    bytes [m]. *)
Definition state (x : xxh) (t : Z) (m : list byte) : xxh :=
  {| v1 := v1 x; v2 := v2 x; v3 := v3 x; v4 := v4 x; total := t; mem := m |}.

(** The digest that has taken in the byte sequence [S], whatever the calls
    of [Write] that brought it: the full blocks of [S] are in the
    accumulators, the bytes after them are pending. *)
Definition absorbed (S : list byte) : xxh :=
  let '(x, rest) := writeBlocks (length S) New S in
  state x (Z.of_nat (length S)) rest.

End xxhash.

#[export] Instance xxhash_Hash64 : Hash64 xxhash.xxh :=
  {| New := xxhash.New; Write := xxhash.Write; Sum64 := xxhash.Sum64 |}.

(** ** Readers *)

(** A reader that gives prepared answers, one a call, whatever the buffer,
    and [0, io.EOF] once they are used up. *)
Definition script : Type := list (list byte * option error).

#[export] Instance script_Reader : Reader script :=
  fun r _ =>
    match r with
    | [] => ([], ([], Some io_EOF))
    | answer :: r' => (r', answer)
    end.

(** A reader over bytes in memory, as [bytes.Reader]: a call gives as many
    of the bytes that remain as the buffer takes, and [0, io.EOF] when none
    remains. *)
Definition bytesReader : Type := list byte.

#[export] Instance bytesReader_Reader : Reader bytesReader :=
  fun r len =>
    match r with
    | [] => ([], ([], Some io_EOF))
    | _ => (drop (Z.to_nat len) r, (take (Z.to_nat len) r, None))
    end.

(** The bytes of a string literal. *)
Definition bytes (s : string) : list byte := String.list_byte_of_string s.


(** ** Sample data *)

(** A header of the given type, declared size and modification time, with
    the given extended attributes. *)
Definition sample_Header (typeflag : byte) (size mtime : Z) (xattrs : mapref)
    : tar.Header :=
  {| tar.Typeflag := typeflag; tar.Name := "etc/passwd"; tar.Linkname := "";
     tar.Size := size; tar.Mode := 420; tar.Uid := 0; tar.Gid := 0;
     tar.Uname := "root"; tar.Gname := "root"; tar.ModTime := mtime;
     tar.AccessTime := 0; tar.ChangeTime := 0; tar.Devmajor := 0;
     tar.Devminor := 0; tar.Xattrs := xattrs; tar.PAXRecords := None;
     tar.Format := 0 |}.

(** A node whose header has extended attributes: the map in cell 0. *)
Definition sample_NodeData : NodeData :=
  {| nd_ViewInfo := {| Collapsed := true; Hidden := false |};
     nd_FileInfo := {| Path := "/etc/passwd"; TypeFlag := tar.TypeReg;
                       hash := 7;
                       TarHeader := sample_Header tar.TypeReg 5 0 (Some 0%nat) |};
     nd_DiffType := Added |}.

(** A store with that map in cell 0 and that node in cell 1. *)
Definition sample_Store : Store :=
  [ObjMap {["user.k" := "v"]}; ObjNodeData sample_NodeData].

(** The configuration in which directories are not collapsed. *)
Definition sample_viper : string -> bool := fun _ => false.


(** ** The named statuses *)

(** The values of [DiffType] that have a name, and the names [String]
    gives them. *)
Definition named (d : DiffType) : Prop :=
  d ∈ [Unchanged; Changed; Added; Removed].

Definition labels : list string :=
  ["Unchanged"; "Changed"; "Added"; "Removed"].

(** The first character of a string is a decimal digit or a minus sign. *)
Definition numeral_head (s : string) : bool :=
  match s with
  | String c _ =>
      bool_decide (c ∈ ["0"; "1"; "2"; "3"; "4"; "5"; "6"; "7"; "8"; "9";
                        "-"]%char)
  | EmptyString => false
  end.


(** * Properties *)

(** ** The model of xxhash against the library's test vectors *)

Example xxhash_empty :
  Sum64 (Write New (bytes "")) = 0xef46db3751d8e999.
Proof. vm_compute. reflexivity. Qed.

Example xxhash_a :
  Sum64 (Write New (bytes "a")) = 0xd24ec4f1a98c6e5b.
Proof. vm_compute. reflexivity. Qed.

Example xxhash_asdf :
  Sum64 (Write New (bytes "asdf")) = 0x415872f599cea71e.
Proof. vm_compute. reflexivity. Qed.

(** 63 bytes: one full block, then words of 8, 4 and 1 bytes. *)
Example xxhash_63_bytes :
  Sum64 (Write New (bytes
    "Call me Ishmael. Some years ago--never mind how long precisely-"))
  = 0x02a2e85470d6fd96.
Proof. vm_compute. reflexivity. Qed.

(** ** DiffType.merge *)

Lemma merge_same (x : DiffType) : merge x x = x.
Proof. unfold merge. by rewrite Z.eqb_refl. Qed.

Lemma merge_differ (x y : DiffType) : x <> y -> merge x y = Changed.
Proof. intros Hne. unfold merge. by apply Z.eqb_neq in Hne as ->. Qed.

Lemma merge_comm (a b : DiffType) : merge a b = merge b a.
Proof.
  destruct (decide (a = b)) as [->|Hne]; [done|].
  rewrite !merge_differ; congruence.
Qed.

(** [Changed] absorbs whatever is merged into it. *)
Lemma merge_Changed_l (x : DiffType) : merge Changed x = Changed.
Proof.
  destruct (decide (Changed = x)) as [<-|Hne];
    [apply merge_same | by apply merge_differ].
Qed.

Lemma merge_Changed_r (x : DiffType) : merge x Changed = Changed.
Proof. rewrite merge_comm. apply merge_Changed_l. Qed.

Lemma merge_assoc (a b c : DiffType) :
  merge (merge a b) c = merge a (merge b c).
Proof.
  destruct (decide (a = b)) as [->|Hab].
  - rewrite merge_same.
    destruct (decide (b = c)) as [->|Hbc]; [by rewrite !merge_same|].
    by rewrite (merge_differ b c), merge_Changed_r.
  - rewrite (merge_differ a b), merge_Changed_l by done.
    destruct (decide (b = c)) as [<-|Hbc].
    + by rewrite merge_same, merge_differ.
    + by rewrite (merge_differ b c), merge_Changed_r.
Qed.

Lemma mergeAll_swap (init x y : DiffType) (l : list DiffType) :
  mergeAll init (x :: y :: l) = mergeAll init (y :: x :: l).
Proof.
  unfold mergeAll. simpl. f_equal.
  by rewrite !merge_assoc, (merge_comm x y).
Qed.

Lemma mergeAll_Permutation (l l' : list DiffType) :
  l ≡ₚ l' -> forall init, mergeAll init l = mergeAll init l'.
Proof.
  induction 1 as [|x l l' _ IH|x y l|l l' l'' _ IH1 _ IH2]; intros init.
  - done.
  - apply (IH (merge init x)).
  - apply mergeAll_swap.
  - by rewrite IH1.
Qed.

(** C1. [merge] is commutative and associative on every [DiffType] value
    (the four named ones and any other integer), so the fold of the statuses
    of a node's children gives the same status in every order of visit:
    two lists that are permutations of each other fold to the same value,
    from every starting status. *)
Theorem merge_commutative_associative :
  (forall a b : DiffType, merge a b = merge b a) /\
  (forall a b c : DiffType, merge (merge a b) c = merge a (merge b c)) /\
  (forall (init : DiffType) (l l' : list DiffType),
      l ≡ₚ l' -> mergeAll init l = mergeAll init l').
Proof.
  split; [exact merge_comm|].
  split; [exact merge_assoc|].
  intros init l l' Hp. by apply mergeAll_Permutation.
Qed.

Lemma merge_commutative_associative_witness :
  mergeAll Unchanged [Unchanged; Added; Removed]
  = mergeAll Unchanged [Removed; Unchanged; Added].
Proof.
  apply (proj2 (proj2 merge_commutative_associative)).
  symmetry. apply (Permutation_cons_append [Unchanged; Added] Removed).
Defined.

(** C2. For all [DiffType] values [x] and [y], [merge x x] is [x], and
    [merge x y] is [Changed] whenever [x] and [y] differ. *)
Theorem merge_equal_or_Changed (x y : DiffType) :
  merge x x = x /\ (x <> y -> merge x y = Changed).
Proof. split; [apply merge_same | apply merge_differ]. Qed.

Lemma merge_equal_or_Changed_witness :
  merge Added Added = Added /\ merge Added Removed = Changed.
Proof.
  split.
  - exact (proj1 (merge_equal_or_Changed Added Removed)).
  - apply (proj2 (merge_equal_or_Changed Added Removed)). discriminate.
Defined.

(** The sixteen combinations of the named values, by evaluation. *)
Example merge_table :
  map (fun x => map (merge x) [Unchanged; Changed; Added; Removed])
      [Unchanged; Changed; Added; Removed]
  = [ [Unchanged; Changed; Changed; Changed];
      [Changed; Changed; Changed; Changed];
      [Changed; Changed; Added; Changed];
      [Changed; Changed; Changed; Removed] ].
Proof. reflexivity. Qed.

(** A directory whose children are Unchanged, Unchanged, Added. *)
Example mergeAll_mixed :
  mergeAll Unchanged [Unchanged; Unchanged; Added] = Changed.
Proof. reflexivity. Qed.

Example DiffType_String_named :
  map DiffType_String [Unchanged; Changed; Added; Removed]
  = ["Unchanged"; "Changed"; "Added"; "Removed"].
Proof. reflexivity. Qed.

Example DiffType_String_7 : DiffType_String 7 = "7".
Proof. reflexivity. Qed.

(** ** FileInfo.Compare *)

Lemma Compare_type_differs (a b : FileInfo) :
  TypeFlag a <> TypeFlag b -> Compare a b = Changed.
Proof.
  intros Hne. unfold Compare.
  destruct (Byte.eqb (TypeFlag a) (TypeFlag b)) eqn:E; [|done].
  by apply Byte.byte_dec_bl in E.
Qed.

Lemma Compare_same_type (a b : FileInfo) :
  TypeFlag a = TypeFlag b ->
  Compare a b = if hash a =? hash b then Unchanged else Changed.
Proof.
  intros Heq. unfold Compare. by rewrite (Byte.byte_dec_lb Heq).
Qed.

(** An entry compared with itself is [Unchanged]. *)
Lemma Compare_refl (a : FileInfo) : Compare a a = Unchanged.
Proof. by rewrite Compare_same_type, Z.eqb_refl. Qed.

(** C3. [Compare a b] is [Changed] when the type flags differ, whatever the
    fingerprints; [Changed] when the type flags match, both entries are
    non-directories and the fingerprints differ; [Unchanged] when the type
    flags match and the fingerprints match; and it is never [Added] or
    [Removed]. *)
Theorem Compare_classifies (a b : FileInfo) :
  (TypeFlag a <> TypeFlag b -> Compare a b = Changed) /\
  (TypeFlag a = TypeFlag b ->
   TypeFlag a <> tar.TypeDir -> TypeFlag b <> tar.TypeDir ->
   hash a <> hash b -> Compare a b = Changed) /\
  (TypeFlag a = TypeFlag b -> hash a = hash b -> Compare a b = Unchanged) /\
  Compare a b <> Added /\ Compare a b <> Removed.
Proof.
  split; [apply Compare_type_differs|].
  split.
  { intros Ht _ _ Hh. rewrite Compare_same_type by done.
    by apply Z.eqb_neq in Hh as ->. }
  split.
  { intros Ht Hh. rewrite Compare_same_type by done.
    by rewrite Hh, Z.eqb_refl. }
  unfold Compare.
  destruct (Byte.eqb _ _), (hash a =? hash b); done.
Qed.

Lemma Compare_classifies_witness :
  Compare {| Path := "/bin/sh"; TypeFlag := tar.TypeReg; hash := 7;
             TarHeader := zero_Header |}
          {| Path := "/bin/sh"; TypeFlag := tar.TypeSymlink; hash := 7;
             TarHeader := zero_Header |} = Changed.
Proof.
  apply (proj1 (Compare_classifies _ _)). simpl. discriminate.
Defined.

(** ** getHashFromReader *)

Lemma uint64_idemp (x : Z) : uint64 (uint64 x) = uint64 x.
Proof. unfold uint64. by rewrite Z.mod_mod. Qed.

Lemma uint64_add_l (x y : Z) : uint64 (uint64 x + y) = uint64 (x + y).
Proof. unfold uint64. by rewrite Zplus_mod_idemp_l. Qed.

Lemma uint64_small (x : Z) : 0 <= x < 2 ^ 64 -> uint64 x = x.
Proof. intros Hx. unfold uint64. by rewrite Z.mod_small. Qed.

Lemma isFatal_false (e : option error) :
  isFatal e = false <-> e = None \/ e = Some io_EOF.
Proof.
  split.
  - destruct e as [[|msg]|]; simpl; intros; auto; discriminate.
  - by intros [->| ->].
Qed.

Section HasherFacts.

Context {D : Type} `{Hash64 D} {R : Type} `{Reader R}.

(** One turn of the loop, by what the read gives. *)
Lemma hashLoop_stop fuel chunk h n r r' e :
  Read r chunk = (r', ([], e)) -> isFatal e = false ->
  hashLoop (S fuel) chunk h n r = Returns (Sum64 h, uint64 n) r'.
Proof.
  intros HR He. simpl. rewrite HR, He. simpl. by rewrite Z.add_0_r.
Qed.

Lemma hashLoop_fatal fuel chunk h n r r' d e :
  Read r chunk = (r', (d, e)) -> isFatal e = true ->
  hashLoop (S fuel) chunk h n r = Panics (Error e) r'.
Proof. intros HR He. simpl. by rewrite HR, He. Qed.

Lemma hashLoop_more fuel chunk h n r r' d e :
  Read r chunk = (r', (d, e)) -> isFatal e = false ->
  d <> [] -> Z.of_nat (length d) <= chunk ->
  hashLoop (S fuel) chunk h n r
  = hashLoop fuel chunk (Write h d) (uint64 (n + Z.of_nat (length d))) r'.
Proof.
  intros HR He Hd Hlen. simpl. rewrite HR, He.
  destruct d as [|b d]; [done|].
  replace (Z.of_nat (length (b :: d)) =? 0) with false
    by (symmetry; apply Z.eqb_neq; simpl length; lia).
  by replace (chunk <? Z.of_nat (length (b :: d))) with false
    by (symmetry; apply Z.ltb_ge; done).
Qed.

(** The loop runs through the reads it goes on after: it gets to the state
    of the reader after them, with their chunks written to the digest one
    by one and their bytes counted. *)
Lemma hashLoop_reads chunk r ds r1 :
  reads chunk r ds r1 ->
  forall fuel h n,
    hashLoop (length ds + fuel) chunk h n r
    = hashLoop fuel chunk (fold_left Write ds h)
        (fold_left (fun n d => uint64 (n + Z.of_nat (length d))) ds n) r1.
Proof.
  induction 1 as [r|r r1 d e ds r' HR Hd Hlen He _ IH]; intros fuel h n.
  - done.
  - simpl length. simpl plus. rewrite (hashLoop_more _ _ _ _ _ _ _ _ HR) by done.
    apply IH.
Qed.

(** It does not stop before the end of these reads. *)
Lemma hashLoop_reads_fuel chunk r ds r1 :
  reads chunk r ds r1 ->
  forall fuel h n, (fuel <= length ds)%nat ->
    hashLoop fuel chunk h n r = OutOfFuel.
Proof.
  induction 1 as [r|r r1 d e ds r' HR Hd Hlen He _ IH]; intros fuel h n Hf.
  - simpl in Hf. by replace fuel with O by lia.
  - destruct fuel as [|fuel]; [done|].
    rewrite (hashLoop_more _ _ _ _ _ _ _ _ HR) by done.
    apply IH. simpl in Hf. lia.
Qed.

(** The counter is the number of bytes of the chunks, as a [uint64]. *)
Lemma count_chunks (ds : list (list byte)) (n : Z) :
  fold_left (fun n d => uint64 (n + Z.of_nat (length d))) ds (uint64 n)
  = uint64 (n + Z.of_nat (length (concat ds))).
Proof.
  revert n. induction ds as [|d ds IH]; intros n.
  - simpl. by rewrite Z.add_0_r.
  - simpl. rewrite uint64_add_l, IH. f_equal.
    rewrite length_app. lia.
Qed.

(** What a run that returns went through. *)
Lemma hashLoop_Returns fuel chunk :
  forall h n r fp n' r',
    hashLoop fuel chunk h n r = Returns (fp, n') r' ->
    exists ds r1 e,
      (length ds < fuel)%nat /\ reads chunk r ds r1 /\
      Read r1 chunk = (r', ([], e)) /\ isFatal e = false /\
      fp = Sum64 (fold_left Write ds h) /\
      n' = uint64 (fold_left (fun n d => uint64 (n + Z.of_nat (length d))) ds n).
Proof.
  induction fuel as [|fuel IH]; intros h n r fp n' r' Hrun; [done|].
  simpl in Hrun.
  destruct (Read r chunk) as [r1 [d e]] eqn:HR.
  destruct (isFatal e) eqn:He; [done|].
  destruct (Z.of_nat (length d) =? 0) eqn:Hz.
  - apply Z.eqb_eq in Hz. destruct d; [|simpl in Hz; lia].
    inversion Hrun; subst. exists [], r, e. simpl.
    rewrite Z.add_0_r. repeat split; try done; [lia | constructor].
  - destruct (chunk <? Z.of_nat (length d)) eqn:Hc; [done|].
    apply Z.ltb_ge in Hc. apply Z.eqb_neq in Hz.
    apply IH in Hrun as (ds & r2 & e' & Hlen & Hreads & HR' & He' & -> & ->).
    exists (d :: ds), r2, e'. simpl.
    repeat split; try done; [lia|].
    eapply reads_more; eauto. by intros ->.
Qed.

End HasherFacts.

(** ** xxhash: the hash is that of the bytes written *)

Lemma xxhash_u64_app (k : nat) (b c : list byte) :
  (k + 8 <= length b)%nat ->
  xxhash.u64 (drop k (b ++ c)) = xxhash.u64 (drop k b).
Proof.
  intros Hk. unfold xxhash.u64. f_equal.
  rewrite drop_app_le by lia.
  apply take_app_le. rewrite length_drop. lia.
Qed.

(** A block is the first 32 bytes of the slice. *)
Lemma xxhash_block_app (x : xxhash.xxh) (b c : list byte) :
  (32 <= length b)%nat -> xxhash.block x (b ++ c) = xxhash.block x b.
Proof.
  intros Hb. unfold xxhash.block. f_equal; f_equal.
  - apply (xxhash_u64_app 0). simpl. lia.
  - apply xxhash_u64_app. lia.
  - apply xxhash_u64_app. lia.
  - apply xxhash_u64_app. lia.
Qed.

Lemma xxhash_block_state (x : xxhash.xxh) (t : Z) (m b : list byte) :
  xxhash.block (xxhash.state x t m) b = xxhash.state (xxhash.block x b) t m.
Proof. reflexivity. Qed.

Lemma xxhash_state_state (x : xxhash.xxh) (t t' : Z) (m m' : list byte) :
  xxhash.state (xxhash.state x t m) t' m' = xxhash.state x t' m'.
Proof. reflexivity. Qed.

Lemma xxhash_writeBlocks_S (k : nat) (x : xxhash.xxh) (b : list byte) :
  xxhash.writeBlocks (S k) x b
  = if (32 <=? length b)%nat
    then xxhash.writeBlocks k (xxhash.block x b) (drop 32 b)
    else (x, b).
Proof. reflexivity. Qed.

Lemma xxhash_writeBlocks_state (k : nat) :
  forall (x : xxhash.xxh) (t : Z) (m b : list byte),
    xxhash.writeBlocks k (xxhash.state x t m) b
    = (xxhash.state (xxhash.writeBlocks k x b).1 t m,
       (xxhash.writeBlocks k x b).2).
Proof.
  induction k as [|k IH]; intros x t m b; [done|].
  rewrite !xxhash_writeBlocks_S.
  destruct (32 <=? length b)%nat; [|done].
  by rewrite xxhash_block_state, IH.
Qed.

(** Fuel beyond the length of the slice changes nothing. *)
Lemma xxhash_writeBlocks_fuel (k : nat) :
  forall (k' : nat) (x : xxhash.xxh) (b : list byte),
    (length b <= k)%nat -> (length b <= k')%nat ->
    xxhash.writeBlocks k x b = xxhash.writeBlocks k' x b.
Proof.
  induction k as [|k IH]; intros k' x b Hk Hk'.
  - destruct b; [|simpl in Hk; lia]. by destruct k'.
  - rewrite xxhash_writeBlocks_S.
    destruct (32 <=? length b)%nat eqn:Hb.
    + apply Nat.leb_le in Hb as Hb'.
      destruct k' as [|k']; [lia|].
      rewrite xxhash_writeBlocks_S, Hb.
      apply IH; rewrite length_drop; lia.
    + destruct k' as [|k']; [done|].
      by rewrite xxhash_writeBlocks_S, Hb.
Qed.

Lemma xxhash_writeBlocks_short (k : nat) (x : xxhash.xxh) (b : list byte) :
  (length b < 32)%nat -> xxhash.writeBlocks k x b = (x, b).
Proof.
  intros Hb. destruct k as [|k]; [done|].
  rewrite xxhash_writeBlocks_S.
  by apply Nat.leb_gt in Hb as ->.
Qed.

(** What it leaves is less than a block. *)
Lemma xxhash_writeBlocks_rest (k : nat) :
  forall (x : xxhash.xxh) (b : list byte),
    (length b <= k)%nat -> (length (xxhash.writeBlocks k x b).2 < 32)%nat.
Proof.
  induction k as [|k IH]; intros x b Hk.
  - simpl. lia.
  - rewrite xxhash_writeBlocks_S.
    destruct (32 <=? length b)%nat eqn:Hb.
    + apply Nat.leb_le in Hb. apply IH. rewrite length_drop. lia.
    + by apply Nat.leb_gt in Hb.
Qed.

(** The blocks of [a ++ b] are the blocks of [a], then those of what [a]
    leaves followed by [b]. *)
Lemma xxhash_writeBlocks_app (k : nat) :
  forall (x : xxhash.xxh) (a b : list byte),
    (length a <= k)%nat ->
    xxhash.writeBlocks (length (a ++ b)) x (a ++ b)
    = xxhash.writeBlocks
        (length ((xxhash.writeBlocks k x a).2 ++ b))
        (xxhash.writeBlocks k x a).1
        ((xxhash.writeBlocks k x a).2 ++ b).
Proof.
  induction k as [|k IH]; intros x a b Hk.
  - by destruct a; [|simpl in Hk; lia].
  - rewrite xxhash_writeBlocks_S.
    destruct (32 <=? length a)%nat eqn:Ha; [|done].
    apply Nat.leb_le in Ha.
    rewrite <- IH by (rewrite length_drop; lia).
    rewrite <- (drop_app_le a b 32) by done.
    assert (32 <= length (a ++ b))%nat as Hab
      by (rewrite length_app; lia).
    destruct (length (a ++ b)) as [|n] eqn:Hn; [lia|].
    rewrite xxhash_writeBlocks_S, Hn.
    apply Nat.leb_le in Hab as ->.
    rewrite xxhash_block_app by done.
    apply xxhash_writeBlocks_fuel; rewrite length_drop; lia.
Qed.

(** A [Write] takes the digest of [S] to the digest of [S ++ b]. *)
Lemma xxhash_Write_absorbed (S b : list byte) :
  xxhash.Write (xxhash.absorbed S) b = xxhash.absorbed (S ++ b).
Proof.
  unfold xxhash.absorbed.
  rewrite (xxhash_writeBlocks_app (length S)) by done.
  pose proof (xxhash_writeBlocks_rest (length S) xxhash.New S (le_n _))
    as Hrest.
  destruct (xxhash.writeBlocks (length S) xxhash.New S) as [x rest].
  simpl in Hrest. cbn [fst snd].
  assert (Z.of_nat (length (S ++ b))
          = Z.of_nat (length S) + Z.of_nat (length b)) as ->
    by (rewrite length_app; lia).
  set (T := Z.of_nat (length S) + Z.of_nat (length b)).
  unfold xxhash.Write.
  change (xxhash.add_total (xxhash.state x (Z.of_nat (length S)) rest)
            (Z.of_nat (length b)))
    with (xxhash.state x T rest).
  cbn [xxhash.mem xxhash.state].
  destruct (length rest + length b <? 32)%nat eqn:Hshort.
  { apply Nat.ltb_lt in Hshort.
    rewrite xxhash_writeBlocks_short by (rewrite length_app; lia).
    reflexivity. }
  apply Nat.ltb_ge in Hshort.
  destruct (0 <? length rest)%nat eqn:Hn.
  - apply Nat.ltb_lt in Hn.
    set (k := (32 - length rest)%nat).
    assert (length (rest ++ take k b) = 32%nat) as Hfill
      by (rewrite length_app, length_take; lia).
    change (xxhash.set_mem
              (xxhash.block (xxhash.state x T rest) (rest ++ take k b)) [])
      with (xxhash.state (xxhash.block x (rest ++ take k b)) T []).
    assert ((if (32 <=? length (drop k b))%nat
             then xxhash.writeBlocks (length (drop k b))
                    (xxhash.state (xxhash.block x (rest ++ take k b)) T [])
                    (drop k b)
             else (xxhash.state (xxhash.block x (rest ++ take k b)) T [],
                   drop k b))
            = xxhash.writeBlocks (length (drop k b))
                (xxhash.state (xxhash.block x (rest ++ take k b)) T [])
                (drop k b)) as ->.
    { destruct (32 <=? length (drop k b))%nat eqn:Hb; [done|].
      apply Nat.leb_gt in Hb. by rewrite xxhash_writeBlocks_short. }
    rewrite xxhash_writeBlocks_state. cbn [fst snd].
    assert (32 <= length (rest ++ b))%nat as Hab
      by (rewrite length_app; lia).
    destruct (length (rest ++ b)) as [|n] eqn:Hlen; [lia|].
    rewrite xxhash_writeBlocks_S, Hlen.
    apply Nat.leb_le in Hab as ->.
    assert (rest ++ b = (rest ++ take k b) ++ drop k b) as Hsplit
      by (by rewrite <- app_assoc, take_drop).
    replace (xxhash.block x (rest ++ b))
      with (xxhash.block x (rest ++ take k b))
      by (rewrite Hsplit; symmetry; apply xxhash_block_app; lia).
    replace (drop 32 (rest ++ b)) with (drop k b)
      by (rewrite Hsplit, drop_app_length'; done).
    rewrite (xxhash_writeBlocks_fuel n (length (drop k b)))
      by (rewrite ?length_app, ?length_drop in *; lia).
    by destruct (xxhash.writeBlocks _ _ _).
  - apply Nat.ltb_ge in Hn.
    destruct rest; [|simpl in Hn; lia]. simpl app.
    assert ((if (32 <=? length b)%nat
             then xxhash.writeBlocks (length b) (xxhash.state x T []) b
             else (xxhash.state x T [], b))
            = xxhash.writeBlocks (length b) (xxhash.state x T []) b) as ->.
    { destruct (32 <=? length b)%nat eqn:Hb; [done|].
      apply Nat.leb_gt in Hb. by rewrite xxhash_writeBlocks_short. }
    rewrite xxhash_writeBlocks_state.
    by destruct (xxhash.writeBlocks _ _ _).
Qed.

Lemma xxhash_New_absorbed : xxhash.New = xxhash.absorbed [].
Proof. reflexivity. Qed.

Lemma xxhash_Writes_absorbed (chunks : list (list byte)) (S : list byte) :
  fold_left xxhash.Write chunks (xxhash.absorbed S)
  = xxhash.absorbed (S ++ concat chunks).
Proof.
  revert S. induction chunks as [|c chunks IH]; intros S; simpl.
  - by rewrite app_nil_r.
  - by rewrite xxhash_Write_absorbed, IH, app_assoc.
Qed.

(** The digest, and so the hash, is that of the bytes written, however
    they were cut into [Write] calls. *)
Lemma xxhash_streaming : Hash64_streaming xxhash.xxh.
Proof.
  intros chunks. simpl. f_equal.
  rewrite xxhash_New_absorbed, xxhash_Writes_absorbed.
  by rewrite xxhash_Write_absorbed.
Qed.

(** ** getHashFromReader: when it returns, when it panics *)

Section HasherRuns.

Context {D : Type} `{Hash64 D} {R : Type} `{Reader R}.

Lemma count_from_0 (ds : list (list byte)) :
  uint64 (fold_left (fun n d => uint64 (n + Z.of_nat (length d))) ds 0)
  = uint64 (Z.of_nat (length (concat ds))).
Proof.
  change 0 with (uint64 0) at 1.
  by rewrite count_chunks, uint64_idemp.
Qed.

(** After reads it goes on after, a read of no byte with [nil] or [io.EOF]
    makes it return. *)
Lemma getHashFromReader_returns fuel chunk (r : R) ds r1 r' e :
  0 <= chunk -> reads chunk r ds r1 ->
  Read r1 chunk = (r', ([], e)) -> isFatal e = false ->
  (length ds < fuel)%nat ->
  getHashFromReader fuel chunk r
  = Returns (Sum64 (fold_left Write ds New),
             uint64 (Z.of_nat (length (concat ds)))) r'.
Proof.
  intros Hc Hreads HR He Hf. unfold getHashFromReader.
  apply Z.ltb_ge in Hc as ->.
  replace fuel with (length ds + S (fuel - length ds - 1))%nat by lia.
  rewrite (hashLoop_reads _ _ _ _ Hreads).
  rewrite (hashLoop_stop _ _ _ _ _ _ _ HR He).
  by rewrite count_from_0.
Qed.

(** After reads it goes on after, a read with another error makes it panic,
    whatever the number of bytes of that read. *)
Lemma getHashFromReader_panics fuel chunk (r : R) ds r1 r' d e :
  0 <= chunk -> reads chunk r ds r1 ->
  Read r1 chunk = (r', (d, e)) -> isFatal e = true ->
  (length ds < fuel)%nat ->
  getHashFromReader fuel chunk r = Panics (Error e) r'.
Proof.
  intros Hc Hreads HR He Hf. unfold getHashFromReader.
  apply Z.ltb_ge in Hc as ->.
  replace fuel with (length ds + S (fuel - length ds - 1))%nat by lia.
  rewrite (hashLoop_reads _ _ _ _ Hreads).
  by rewrite (hashLoop_fatal _ _ _ _ _ _ _ _ HR He).
Qed.

(** A run that returned went through such reads. *)
Lemma getHashFromReader_returned fuel chunk (r : R) fp n r' :
  getHashFromReader fuel chunk r = Returns (fp, n) r' ->
  0 <= chunk /\
  exists ds r1 e,
    (length ds < fuel)%nat /\ reads chunk r ds r1 /\
    Read r1 chunk = (r', ([], e)) /\ isFatal e = false /\
    fp = Sum64 (fold_left Write ds New) /\
    n = uint64 (Z.of_nat (length (concat ds))).
Proof.
  unfold getHashFromReader. destruct (chunk <? 0) eqn:Hc; [done|].
  apply Z.ltb_ge in Hc. intros Hrun. split; [done|].
  apply hashLoop_Returns in Hrun
    as (ds & r1 & e & Hlen & Hreads & HR & He & -> & ->).
  exists ds, r1, e. by rewrite count_from_0.
Qed.

(** C6, as the code has it. [getHashFromReader] returns exactly when,
    after reads that each gave at least one byte and no error other than
    [io.EOF], a read gives no byte and an error that is [nil] or [io.EOF]:
    it then returns the hash of the chunks written in order and the number
    of their bytes as a [uint64], and leaves the reader as that last read
    left it. And when, after such reads, a read gives an error other than
    [io.EOF], it panics with that error and leaves the reader as the failing
    read left it: that read is not tried again, and no other is made. *)
Theorem getHashFromReader_stops_or_panics fuel chunk (r : R) :
  (forall fp n r',
     getHashFromReader fuel chunk r = Returns (fp, n) r' <->
     0 <= chunk /\
     exists ds r1 e,
       (length ds < fuel)%nat /\ reads chunk r ds r1 /\
       Read r1 chunk = (r', ([], e)) /\ (e = None \/ e = Some io_EOF) /\
       fp = Sum64 (fold_left Write ds New) /\
       n = uint64 (Z.of_nat (length (concat ds)))) /\
  (forall ds r1 r' d msg,
     0 <= chunk -> (length ds < fuel)%nat -> reads chunk r ds r1 ->
     Read r1 chunk = (r', (d, Some (other_error msg))) ->
     getHashFromReader fuel chunk r = Panics msg r').
Proof.
  split.
  - intros fp n r'. split.
    + intros Hrun. apply getHashFromReader_returned in Hrun
        as (Hc & ds & r1 & e & Hlen & Hreads & HR & He & Hfp & Hn).
      split; [done|]. exists ds, r1, e.
      by rewrite <- isFatal_false.
    + intros (Hc & ds & r1 & e & Hlen & Hreads & HR & He & -> & ->).
      apply isFatal_false in He.
      by eapply getHashFromReader_returns.
  - intros ds r1 r' d msg Hc Hlen Hreads HR.
    by apply (getHashFromReader_panics fuel chunk r ds r1 r' d
                (Some (other_error msg))).
Qed.

End HasherRuns.

Lemma getHashFromReader_stops_or_panics_witness :
  getHashFromReader (D := xxhash.xxh) 3 chuckSize
    ([(bytes "abc", None); (bytes "de", Some io_EOF)] : script)
  = Returns (Sum64 (Write (Write New (bytes "abc")) (bytes "de")), 5) [] /\
  getHashFromReader (D := xxhash.xxh) 3 chuckSize
    ([(bytes "abc", None); (bytes "x", Some (other_error "unexpected EOF"));
      (bytes "de", None)] : script)
  = Panics "unexpected EOF" [(bytes "de", None)].
Proof.
  split.
  - apply (proj1 (getHashFromReader_stops_or_panics (D := xxhash.xxh) 3
                    chuckSize
                    ([(bytes "abc", None); (bytes "de", Some io_EOF)]
                      : script))).
    split; [done|].
    exists [bytes "abc"; bytes "de"], ([] : script), (Some io_EOF).
    split; [simpl; lia|].
    split.
    { eapply reads_more; [reflexivity|done|done|done|].
      eapply reads_more; [reflexivity|done|done|done|].
      apply reads_done. }
    split; [reflexivity|]. split; [by right|]. split; reflexivity.
  - apply (proj2 (getHashFromReader_stops_or_panics (D := xxhash.xxh) 3
                    chuckSize _) [bytes "abc"]
             ([(bytes "x", Some (other_error "unexpected EOF"));
               (bytes "de", None)] : script) _ (bytes "x")).
    + done.
    + simpl. lia.
    + eapply reads_more; [reflexivity|done|done|done|]. apply reads_done.
    + reflexivity.
Defined.

(** C6, as stated, fails: a read of no byte with a [nil] error ends the
    loop just as well. Here the first read gives [0, nil] and the stream
    still holds "abc": the hasher returns the hash of no byte and the count
    0 after that one read, and no read of no byte with [io.EOF] leads to
    the state the reader is left in. *)
Lemma getHashFromReader_stops_without_EOF :
  Read ([([], None); (bytes "abc", None)] : script) chuckSize
  = ([(bytes "abc", None)], ([], None)) /\
  getHashFromReader (D := xxhash.xxh) 1 chuckSize
    ([([], None); (bytes "abc", None)] : script)
  = Returns (Sum64 (New : xxhash.xxh), 0) [(bytes "abc", None)] /\
  ~ (exists ds r1,
       reads chuckSize ([([], None); (bytes "abc", None)] : script) ds r1 /\
       Read r1 chuckSize = ([(bytes "abc", None)], ([], Some io_EOF))).
Proof.
  split; [reflexivity|]. split; [reflexivity|].
  intros (ds & r1 & Hreads & HR).
  inversion Hreads as [r0|r0 r2 d e ds' r3 HR0 Hd]; subst.
  - discriminate HR.
  - apply Hd. by inversion HR0.
Qed.

(** ** The fingerprint is a function of the bytes *)

Section Fingerprint.

Context {D : Type} `{Hash64 D}.

(** The run over a stream that holds [S]: enough fuel gives the hash of
    [S] and its length, whatever the reader and the size of the buffer. *)
Lemma getHashFromReader_delivers {R : Type} `{Reader R}
    chunk (r : R) (S : list byte) r' :
  Hash64_streaming D -> 0 <= chunk -> delivers chunk r S r' ->
  exists fuel0 : nat, forall fuel : nat, (fuel0 <= fuel)%nat ->
    getHashFromReader fuel chunk r
    = Returns (Sum64 (Write New S), uint64 (Z.of_nat (length S))) r'.
Proof.
  intros Hstream Hc (ds & r1 & e & Hreads & <- & HR & He).
  exists (S (length ds)). intros fuel Hfuel.
  rewrite <- Hstream.
  eapply getHashFromReader_returns; eauto.
Qed.

(** C7. The fingerprint and the byte count are functions of the byte
    sequence the stream holds: two runs over streams that hold the same
    sequence [S], by readers of any kind that cut [S] into chunks in any
    way, with any sizes [c1] and [c2] of the buffer, return the same
    fingerprint and the same count, those of [S]. The hash is taken to be
    that of the bytes written, as [xxhash_streaming] shows of xxhash. *)
Theorem fingerprint_of_bytes
    {R1 : Type} `{Reader R1} {R2 : Type} `{Reader R2}
    (S : list byte) (c1 c2 : Z) (r1 r1' : R1) (r2 r2' : R2) :
  Hash64_streaming D ->
  0 <= c1 -> 0 <= c2 ->
  delivers c1 r1 S r1' -> delivers c2 r2 S r2' ->
  exists fuel0 : nat, forall fuel1 fuel2 : nat,
    (fuel0 <= fuel1)%nat -> (fuel0 <= fuel2)%nat ->
    getHashFromReader fuel1 c1 r1
    = Returns (Sum64 (Write New S), uint64 (Z.of_nat (length S))) r1' /\
    getHashFromReader fuel2 c2 r2
    = Returns (Sum64 (Write New S), uint64 (Z.of_nat (length S))) r2'.
Proof.
  intros Hstream Hc1 Hc2 Hd1 Hd2.
  destruct (getHashFromReader_delivers c1 r1 S r1' Hstream Hc1 Hd1)
    as [f1 Hf1].
  destruct (getHashFromReader_delivers c2 r2 S r2' Hstream Hc2 Hd2)
    as [f2 Hf2].
  exists (f1 `max` f2)%nat. intros fuel1 fuel2 Hfuel1 Hfuel2.
  split; [apply Hf1 | apply Hf2]; lia.
Qed.

End Fingerprint.

(** "hello world" in chunks of 5, 1 and 5 bytes from a script, and in
    chunks of 4, 4 and 3 bytes from memory through a buffer of 4 bytes. *)
Lemma fingerprint_of_bytes_witness :
  exists fuel0 : nat, forall fuel1 fuel2 : nat,
    (fuel0 <= fuel1)%nat -> (fuel0 <= fuel2)%nat ->
    getHashFromReader (D := xxhash.xxh) fuel1 chuckSize
      ([(bytes "hello", None); (bytes " ", None); (bytes "world", None)]
        : script)
    = Returns (Sum64 (Write New (bytes "hello world")), 11) [] /\
    getHashFromReader (D := xxhash.xxh) fuel2 4
      (bytes "hello world" : bytesReader)
    = Returns (Sum64 (Write New (bytes "hello world")), 11) [].
Proof.
  apply (fingerprint_of_bytes (D := xxhash.xxh) (bytes "hello world")
           chuckSize 4).
  - exact xxhash_streaming.
  - done.
  - done.
  - exists [bytes "hello"; bytes " "; bytes "world"], ([] : script),
      (Some io_EOF).
    split; [|by repeat split].
    do 3 (eapply reads_more; [reflexivity|done|done|done|]).
    apply reads_done.
  - exists [bytes "hell"; bytes "o wo"; bytes "rld"], ([] : bytesReader),
      (Some io_EOF).
    split; [|by repeat split].
    do 3 (eapply reads_more; [reflexivity|done|done|done|]).
    apply reads_done.
Defined.

Example fingerprint_hello_world :
  getHashFromReader (D := xxhash.xxh) 4 4 (bytes "hello world" : bytesReader)
  = getHashFromReader (D := xxhash.xxh) 4 chuckSize
      (bytes "hello world" : bytesReader).
Proof. vm_compute. reflexivity. Qed.

(** With xxhash, the hash [getHashFromReader] uses: the fingerprint of a
    stream that holds [S] is the XXH64 of [S]. *)
Lemma getHashFromReader_xxhash {R : Type} `{Reader R}
    chunk (r : R) (S : list byte) r' :
  0 <= chunk -> delivers chunk r S r' ->
  exists fuel0 : nat, forall fuel : nat, (fuel0 <= fuel)%nat ->
    getHashFromReader (D := xxhash.xxh) fuel chunk r
    = Returns (xxhash.Sum64 (xxhash.absorbed S),
               uint64 (Z.of_nat (length S))) r'.
Proof.
  intros Hc Hdel.
  destruct (getHashFromReader_delivers (D := xxhash.xxh) chunk r S r'
              xxhash_streaming Hc Hdel) as [fuel0 Hrun].
  exists fuel0. intros fuel Hfuel. rewrite (Hrun fuel Hfuel).
  simpl. by rewrite xxhash_New_absorbed, xxhash_Write_absorbed.
Qed.

(** A reader over the bytes [S] in memory delivers [S], through a buffer of
    any size but 0. *)
Lemma bytesReader_reads (chunk : Z) :
  0 < chunk ->
  forall (n : nat) (S : bytesReader), (length S <= n)%nat ->
    exists ds, reads chunk S ds ([] : bytesReader) /\ concat ds = S.
Proof.
  intros Hc. induction n as [|n IH]; intros S Hn.
  - destruct S; [|simpl in Hn; lia]. exists []. split; [constructor|done].
  - destruct S as [|b S]; [exists []; split; [constructor|done]|].
    set (k := Z.to_nat chunk).
    assert (0 < k)%nat as Hk by lia.
    destruct (IH (drop k (b :: S))) as (ds & Hreads & Hcat).
    { rewrite length_drop. simpl in *. lia. }
    exists (take k (b :: S) :: ds). split.
    + eapply reads_more; [reflexivity| | |reflexivity|exact Hreads].
      * destruct k; [lia|done].
      * rewrite length_take. lia.
    + simpl. by rewrite Hcat, take_drop.
Qed.

Lemma bytesReader_delivers (chunk : Z) (S : bytesReader) :
  0 < chunk -> delivers chunk S S ([] : bytesReader).
Proof.
  intros Hc.
  destruct (bytesReader_reads chunk Hc (length S) S (le_n _))
    as (ds & Hreads & Hcat).
  by exists ds, [], (Some io_EOF).
Qed.

(** So the fingerprint of bytes in memory is their XXH64, and the count is
    their number, whatever the size of the buffer. *)
Lemma getHashFromReader_bytes (chunk : Z) (S : bytesReader) :
  0 < chunk ->
  exists fuel0 : nat, forall fuel : nat, (fuel0 <= fuel)%nat ->
    getHashFromReader (D := xxhash.xxh) fuel chunk S
    = Returns (xxhash.Sum64 (xxhash.absorbed S),
               uint64 (Z.of_nat (length S))) ([] : bytesReader).
Proof.
  intros Hc. apply getHashFromReader_xxhash; [lia|].
  by apply bytesReader_delivers.
Qed.

(** ** NewFileInfo *)

Section NewFileInfoFacts.

Context {D : Type} `{Hash64 D} {R : Type} `{Reader R}.

(** The branch of directories. *)
Lemma NewFileInfo_dir fuel chunk header path (r : R) :
  tar.Typeflag header = tar.TypeDir ->
  NewFileInfo fuel chunk header path r
  = Returns {| Path := path; TypeFlag := tar.Typeflag header; hash := 0;
               TarHeader := header |} r.
Proof.
  intros Hdir. unfold NewFileInfo. by rewrite (Byte.byte_dec_lb Hdir).
Qed.

(** The branch of the other entries. *)
Lemma NewFileInfo_not_dir fuel chunk header path (r : R) :
  tar.Typeflag header <> tar.TypeDir ->
  NewFileInfo fuel chunk header path r
  = match getHashFromReader fuel chunk r with
    | Returns (fp, n) r' =>
        if n =? uint64 (tar.Size header)
        then Returns {| Path := path; TypeFlag := tar.Typeflag header;
                        hash := fp; TarHeader := header |} r'
        else Panics "" r'
    | Panics msg r' => Panics msg r'
    | OutOfFuel => OutOfFuel
    end.
Proof.
  intros Hdir. unfold NewFileInfo, bind.
  destruct (Byte.eqb _ _) eqn:E; [by apply Byte.byte_dec_bl in E|].
  destruct (getHashFromReader fuel chunk r) as [[fp n] r'|msg r'|]; [|done..].
  by destruct (n =? uint64 (tar.Size header)).
Qed.

(** C5. For an entry that is not a directory, when the hasher returns a
    byte count that differs from the size the header declares (as the
    [uint64] the code compares it as), be it smaller or larger,
    [NewFileInfo] panics: it returns no [FileInfo], so no fingerprint of a
    payload that is shorter or longer than declared. *)
Theorem NewFileInfo_size_mismatch fuel chunk header path (r : R) fp n r' :
  tar.Typeflag header <> tar.TypeDir ->
  getHashFromReader fuel chunk r = Returns (fp, n) r' ->
  n < uint64 (tar.Size header) \/ uint64 (tar.Size header) < n ->
  NewFileInfo fuel chunk header path r = Panics "" r' /\
  forall fi r'', NewFileInfo fuel chunk header path r <> Returns fi r''.
Proof.
  intros Hdir Hrun Hn.
  assert (NewFileInfo fuel chunk header path r = Panics "" r') as ->.
  { rewrite NewFileInfo_not_dir, Hrun by done.
    replace (n =? uint64 (tar.Size header)) with false; [done|].
    symmetry. apply Z.eqb_neq. lia. }
  done.
Qed.

(** The same on the stream: a stream that holds fewer or more bytes than
    the size a well-formed header declares makes [NewFileInfo] panic. *)
Lemma NewFileInfo_truncated_or_padded chunk header path (r : R) S r' :
  tar.Typeflag header <> tar.TypeDir ->
  0 <= chunk -> delivers chunk r S r' ->
  0 <= tar.Size header < 2 ^ 63 -> Z.of_nat (length S) < 2 ^ 64 ->
  Z.of_nat (length S) <> tar.Size header ->
  exists fuel0 : nat, forall fuel : nat, (fuel0 <= fuel)%nat ->
    NewFileInfo fuel chunk header path r = Panics "" r'.
Proof.
  intros Hdir Hc (ds & r1 & e & Hreads & <- & HR & He) Hsize Hlen Hne.
  exists (S (length ds)). intros fuel Hfuel.
  rewrite NewFileInfo_not_dir by done.
  rewrite (getHashFromReader_returns fuel chunk r ds r1 r' e) by done.
  rewrite !uint64_small by lia.
  by apply Z.eqb_neq in Hne as ->.
Qed.

(** And a stream that holds as many bytes as declared gives the entry with
    the hash of these bytes. *)
Lemma NewFileInfo_complete chunk header path (r : R) S r' :
  Hash64_streaming D ->
  tar.Typeflag header <> tar.TypeDir ->
  0 <= chunk -> delivers chunk r S r' ->
  Z.of_nat (length S) < 2 ^ 64 ->
  Z.of_nat (length S) = tar.Size header ->
  exists fuel0 : nat, forall fuel : nat, (fuel0 <= fuel)%nat ->
    NewFileInfo fuel chunk header path r
    = Returns {| Path := path; TypeFlag := tar.Typeflag header;
                 hash := Sum64 (Write New S); TarHeader := header |} r'.
Proof.
  intros Hstream Hdir Hc Hdel Hlen Hsize.
  destruct (getHashFromReader_delivers chunk r S r' Hstream Hc Hdel)
    as [fuel0 Hrun].
  exists fuel0. intros fuel Hfuel.
  rewrite NewFileInfo_not_dir, Hrun, <- Hsize by done.
  by rewrite Z.eqb_refl.
Qed.

(** C8. For a header with the directory type flag, [NewFileInfo] returns
    the entry with fingerprint 0 and leaves the reader in the state it was
    in: no read is made, with any fuel, also none at all, and whatever the
    reader would have answered. *)
Theorem NewFileInfo_directory fuel chunk header path (r : R) :
  tar.Typeflag header = tar.TypeDir ->
  exists fi,
    NewFileInfo fuel chunk header path r = Returns fi r /\
    NewFileInfo 0 chunk header path r = Returns fi r /\
    hash fi = 0 /\ TypeFlag fi = tar.TypeDir /\
    Path fi = path /\ TarHeader fi = header.
Proof.
  intros Hdir. eexists. rewrite !NewFileInfo_dir by done.
  repeat split. done.
Qed.

(** Entries built by [NewFileInfo] from directory headers compare
    [Unchanged]. *)
Lemma Compare_NewFileInfo_dirs fuel1 fuel2 chunk1 chunk2 header1 header2
    path1 path2 (r1 r2 r1' r2' : R) a b :
  tar.Typeflag header1 = tar.TypeDir -> tar.Typeflag header2 = tar.TypeDir ->
  NewFileInfo fuel1 chunk1 header1 path1 r1 = Returns a r1' ->
  NewFileInfo fuel2 chunk2 header2 path2 r2 = Returns b r2' ->
  Compare a b = Unchanged.
Proof.
  intros Hd1 Hd2. rewrite !NewFileInfo_dir by done.
  intros [= <- _] [= <- _].
  by rewrite Compare_same_type by (simpl; congruence).
Qed.

End NewFileInfoFacts.

Lemma NewFileInfo_size_mismatch_witness :
  NewFileInfo (D := xxhash.xxh) 2 chuckSize
    (sample_Header tar.TypeReg 5 0 None)
    "/bin/sh" (bytes "abc" : bytesReader)
  = Panics "" [].
Proof.
  refine (proj1 (NewFileInfo_size_mismatch (D := xxhash.xxh) 2 chuckSize _
                   "/bin/sh" (bytes "abc" : bytesReader)
                   (Sum64 (Write New (bytes "abc"))) 3 [] _ _ _)).
  - simpl. discriminate.
  - reflexivity.
  - left. reflexivity.
Defined.

(** A stream longer than declared fails as well. *)
Example NewFileInfo_padded :
  NewFileInfo (D := xxhash.xxh) 2 chuckSize
    (sample_Header tar.TypeReg 2 0 None)
    "/bin/sh" (bytes "abc" : bytesReader)
  = Panics "" [].
Proof. reflexivity. Qed.

(** The reader would fail at its first read; it is not read. *)
Lemma NewFileInfo_directory_witness :
  exists fi,
    NewFileInfo (D := xxhash.xxh) 5 chuckSize
      (sample_Header tar.TypeDir 0 0 None)
      "/etc" ([(bytes "x", Some (other_error "closed"))] : script)
    = Returns fi [(bytes "x", Some (other_error "closed"))] /\
    hash fi = 0.
Proof.
  destruct (NewFileInfo_directory (D := xxhash.xxh) 5 chuckSize
      (sample_Header tar.TypeDir 0 0 None)
      "/etc" ([(bytes "x", Some (other_error "closed"))] : script)
      eq_refl) as (fi & Hrun & _ & Hhash & _).
  exists fi. split; [exact Hrun | exact Hhash].
Defined.

(** ** Compare on directories *)

(** C4, as the code has it. [Compare] has no case for directories: on two
    entries with the directory type flag it is [Unchanged] when their
    fingerprints are equal and [Changed] when they differ, whatever their
    paths and headers. The fingerprint of a directory entry that
    [NewFileInfo] builds is 0, so two such entries compare [Unchanged],
    whatever their paths, times and other metadata. *)
Theorem Compare_directories :
  (forall a b : FileInfo,
     TypeFlag a = tar.TypeDir -> TypeFlag b = tar.TypeDir ->
     Compare a b = if hash a =? hash b then Unchanged else Changed) /\
  (forall (D R : Type) (HD : Hash64 D) (HR : Reader R)
          fuel1 fuel2 chunk1 chunk2 header1 header2 path1 path2
          (r1 r2 r1' r2' : R) (a b : FileInfo),
     tar.Typeflag header1 = tar.TypeDir ->
     tar.Typeflag header2 = tar.TypeDir ->
     NewFileInfo fuel1 chunk1 header1 path1 r1 = Returns a r1' ->
     NewFileInfo fuel2 chunk2 header2 path2 r2 = Returns b r2' ->
     Compare a b = Unchanged).
Proof.
  split.
  - intros a b Ha Hb. apply Compare_same_type. congruence.
  - intros D R HD HR fuel1 fuel2 chunk1 chunk2 header1 header2 path1 path2
      r1 r2 r1' r2' a b Hd1 Hd2 Ha Hb.
    exact (Compare_NewFileInfo_dirs _ _ _ _ _ _ _ _ _ _ _ _ _ _
             Hd1 Hd2 Ha Hb).
Qed.

(** /etc in two layers, with different times. *)
Lemma Compare_directories_witness :
  Compare
    {| Path := "/etc"; TypeFlag := tar.TypeDir; hash := 0;
       TarHeader := zero_Header |}
    {| Path := "/etc"; TypeFlag := tar.TypeDir; hash := 0;
       TarHeader :=
         sample_Header tar.TypeDir 0 1540000000 None |}
  = Unchanged.
Proof.
  apply (proj1 Compare_directories); reflexivity.
Defined.

(** C4, as stated, fails: [Compare] reads the fingerprints of directory
    entries too. Two entries with the directory type flag and fingerprints
    1 and 2 compare [Changed]. *)
Lemma Compare_directories_consults_hash :
  TypeFlag {| Path := "/etc"; TypeFlag := tar.TypeDir; hash := 1;
              TarHeader := zero_Header |} = tar.TypeDir /\
  TypeFlag {| Path := "/etc"; TypeFlag := tar.TypeDir; hash := 2;
              TarHeader := zero_Header |} = tar.TypeDir /\
  Compare {| Path := "/etc"; TypeFlag := tar.TypeDir; hash := 1;
             TarHeader := zero_Header |}
          {| Path := "/etc"; TypeFlag := tar.TypeDir; hash := 2;
             TarHeader := zero_Header |}
  = Changed /\
  Changed <> Unchanged.
Proof. by repeat split. Qed.

(** ** The Copy methods *)

Lemma FileInfo_eta (f : FileInfo) :
  {| Path := Path f; TypeFlag := TypeFlag f; hash := hash f;
     TarHeader := TarHeader f |} = f.
Proof. by destruct f. Qed.

Lemma NodeData_eta (d : NodeData) :
  {| nd_ViewInfo := nd_ViewInfo d; nd_FileInfo := nd_FileInfo d;
     nd_DiffType := nd_DiffType d |} = d.
Proof. by destruct d. Qed.

Lemma get_NodeData_Obj (s : Store) (l : loc) (d : NodeData) :
  get_NodeData s (Obj l) = Some d <-> s !! l = Some (ObjNodeData d).
Proof.
  simpl. destruct (s !! l) as [[]|]; split; intros; simplify_eq; done.
Qed.

(** Allocation keeps what the store holds. *)
Lemma get_NodeData_app (s s' : Store) (p : pointer) (d : NodeData) :
  get_NodeData s p = Some d -> get_NodeData (s ++ s') p = Some d.
Proof.
  destruct p as [|l|l|l]; try done. simpl.
  destruct (s !! l) as [o|] eqn:E; [|done].
  by rewrite (lookup_app_l_Some _ _ _ _ E).
Qed.

Lemma get_ViewInfo_app (s s' : Store) (p : pointer) (v : ViewInfo) :
  get_ViewInfo s p = Some v -> get_ViewInfo (s ++ s') p = Some v.
Proof.
  destruct p as [|l|l|l]; try done; simpl;
    destruct (s !! l) as [o|] eqn:E; try done;
    by rewrite (lookup_app_l_Some _ _ _ _ E).
Qed.

Lemma get_FileInfo_app (s s' : Store) (p : pointer) (f : FileInfo) :
  get_FileInfo s p = Some f -> get_FileInfo (s ++ s') p = Some f.
Proof.
  destruct p as [|l|l|l]; try done; simpl;
    destruct (s !! l) as [o|] eqn:E; try done;
    by rewrite (lookup_app_l_Some _ _ _ _ E).
Qed.

(** What the three Copy methods do to the store. *)
Lemma FileInfo_Copy_run (s : Store) (p : pointer) (f : FileInfo) :
  get_FileInfo s p = Some f ->
  FileInfo_Copy p s = Returns (Obj (length s)) (s ++ [ObjFileInfo f]).
Proof.
  intros Hf.
  assert (FileInfo_Copy p s
          = (d <- load get_FileInfo p ;;
             l <- alloc (ObjFileInfo
                           {| Path := Path d; TypeFlag := TypeFlag d;
                              hash := hash d; TarHeader := TarHeader d |}) ;;
             ret (Obj l))%go s) as ->
    by (by destruct p).
  unfold bind, load. rewrite Hf. unfold alloc, ret.
  by rewrite FileInfo_eta.
Qed.

Lemma ViewInfo_Copy_run viper (s : Store) (p : pointer) (v : ViewInfo) :
  get_ViewInfo s p = Some v ->
  ViewInfo_Copy viper p s = Returns (Obj (length s)) (s ++ [ObjViewInfo v]).
Proof.
  intros Hv. unfold ViewInfo_Copy, NewViewInfo, bind, alloc, ret, load, store.
  rewrite (get_ViewInfo_app _ _ _ _ Hv).
  unfold set_ViewInfo. rewrite list_lookup_middle by done.
  f_equal. rewrite insert_app_r_alt by done.
  by rewrite Nat.sub_diag.
Qed.

Lemma NodeData_Copy_run viper (s : Store) (l : loc) (d : NodeData) :
  get_NodeData s (Obj l) = Some d ->
  NodeData_Copy viper (Obj l) s
  = Returns (Obj (length s + 2)%nat)
      (s ++ [ObjViewInfo (nd_ViewInfo d); ObjFileInfo (nd_FileInfo d);
             ObjNodeData d]).
Proof.
  intros Hd. unfold NodeData_Copy, bind.
  rewrite (ViewInfo_Copy_run viper s (FieldViewInfo l) (nd_ViewInfo d))
    by (simpl in *; by rewrite Hd).
  unfold load at 1. simpl get_ViewInfo.
  rewrite list_lookup_middle by done.
  rewrite (FileInfo_Copy_run _ (FieldFileInfo l) (nd_FileInfo d))
    by (apply get_FileInfo_app; simpl in *; by rewrite Hd).
  unfold load at 1. simpl get_FileInfo.
  rewrite list_lookup_middle by done.
  unfold load.
  rewrite (get_NodeData_app _ _ _ d) by by apply get_NodeData_app.
  unfold alloc, ret. rewrite NodeData_eta.
  rewrite !length_app, <- !app_assoc. simpl. do 2 f_equal. lia.
Qed.

Lemma NewNodeData_run viper (s : Store) :
  NewNodeData viper s
  = Returns (Obj (length s + 1)%nat)
      (s ++ [ObjViewInfo {| Collapsed := viper "filetree.collapse-dir";
                            Hidden := false |};
             ObjNodeData
               {| nd_ViewInfo := {| Collapsed := viper "filetree.collapse-dir";
                                    Hidden := false |};
                  nd_FileInfo := zero_FileInfo;
                  nd_DiffType := Unchanged |}]).
Proof.
  unfold NewNodeData, NewViewInfo, bind, alloc, ret, load. simpl.
  rewrite list_lookup_middle by done.
  by rewrite length_app, <- app_assoc.
Qed.

(** An assignment through a pointer changes the cell it points into, and
    no other. *)
Lemma set_NodeData_frame (s s' : Store) (p : pointer) (d : NodeData) (l : loc) :
  set_NodeData s p d = Some s' -> cell p <> Some l -> s' !! l = s !! l.
Proof.
  unfold set_NodeData.
  destruct (get_NodeData s p), p as [|c|c|c]; intros [= <-] Hl; try done.
  apply list_lookup_insert_ne. simpl in Hl. congruence.
Qed.

Lemma set_ViewInfo_frame (s s' : Store) (p : pointer) (v : ViewInfo) (l : loc) :
  set_ViewInfo s p v = Some s' -> cell p <> Some l -> s' !! l = s !! l.
Proof.
  destruct p as [|c|c|c]; simpl; try done;
    destruct (s !! c) as [[]|]; intros [= <-] Hl;
    apply list_lookup_insert_ne; congruence.
Qed.

Lemma set_FileInfo_frame (s s' : Store) (p : pointer) (f : FileInfo) (l : loc) :
  set_FileInfo s p f = Some s' -> cell p <> Some l -> s' !! l = s !! l.
Proof.
  destruct p as [|c|c|c]; simpl; try done;
    destruct (s !! c) as [[]|]; intros [= <-] Hl;
    apply list_lookup_insert_ne; congruence.
Qed.

(** A write into a map is read through every reference to that map. *)
Lemma map_assign_lookup (s : Store) (m : loc) (g : gmap string string)
    (k v : string) :
  s !! m = Some (ObjMap g) ->
  map_assign (Some m) k v s = Returns tt (<[m := ObjMap (<[k := v]> g)]> s) /\
  map_lookup (<[m := ObjMap (<[k := v]> g)]> s) (Some m) k = Some v.
Proof.
  intros Hm. unfold map_assign, map_lookup, get_map. rewrite Hm.
  split; [done|].
  rewrite list_lookup_insert_eq by by eapply lookup_lt_Some.
  simpl. apply lookup_insert_eq.
Qed.

(** C10. [FileInfo.Copy] on a [nil] pointer returns [nil], without a panic
    and without touching the store; on a pointer to a [FileInfo] it returns
    a pointer to a new [FileInfo] whose [Path], [TypeFlag], [hash] and
    [TarHeader] are those of the source. *)
Theorem FileInfo_Copy_total (s : Store) :
  FileInfo_Copy Nil s = Returns Nil s /\
  forall (p : pointer) (f : FileInfo),
    get_FileInfo s p = Some f ->
    exists (c : loc) (s' : Store) (f' : FileInfo),
      FileInfo_Copy p s = Returns (Obj c) s' /\
      s !! c = None /\
      get_FileInfo s' (Obj c) = Some f' /\
      Path f' = Path f /\ TypeFlag f' = TypeFlag f /\
      hash f' = hash f /\ TarHeader f' = TarHeader f.
Proof.
  split; [done|]. intros p f Hf.
  exists (length s), (s ++ [ObjFileInfo f]), f.
  split; [by apply FileInfo_Copy_run|].
  split; [by apply lookup_ge_None_2|].
  split; [|done].
  simpl. by rewrite list_lookup_middle.
Qed.

Lemma FileInfo_Copy_total_witness :
  FileInfo_Copy Nil sample_Store = Returns Nil sample_Store /\
  exists (c : loc) (s' : Store) (f' : FileInfo),
    FileInfo_Copy (FieldFileInfo 1) sample_Store = Returns (Obj c) s' /\
    sample_Store !! c = None /\
    get_FileInfo s' (Obj c) = Some f' /\
    Path f' = "/etc/passwd" /\ TypeFlag f' = tar.TypeReg /\
    hash f' = 7 /\
    TarHeader f' = sample_Header tar.TypeReg 5 0 (Some 0%nat).
Proof.
  split.
  - exact (proj1 (FileInfo_Copy_total sample_Store)).
  - exact (proj2 (FileInfo_Copy_total sample_Store) (FieldFileInfo 1)
             (nd_FileInfo sample_NodeData) eq_refl).
Defined.

(** C9, as the code has it. [d.Copy()] returns a pointer to a new
    [NodeData] that is field for field equal to [d]: same view state, same
    entry, same diff status. The structs are copied: an assignment to the
    copy, to its [ViewInfo], to its [FileInfo] or to any field of these
    (also of the embedded tar header) changes the cell of the copy and
    leaves every cell the store had before as it was, [d] among them. The
    maps of the tar header are not copied: the copy's [Xattrs] and
    [PAXRecords] are the very references [d] holds, and an entry written
    through the copy's map is read through [d]'s. *)
Theorem NodeData_Copy_fields viper (s : Store) (l : loc) (d : NodeData) :
  get_NodeData s (Obj l) = Some d ->
  exists (c : loc) (s' : Store),
    NodeData_Copy viper (Obj l) s = Returns (Obj c) s' /\
    c <> l /\ s !! c = None /\
    get_NodeData s' (Obj c) = Some d /\
    (forall l' o, s !! l' = Some o -> s' !! l' = Some o) /\
    (forall d' s'', set_NodeData s' (Obj c) d' = Some s'' ->
       get_NodeData s'' (Obj c) = Some d' /\
       forall l' o, s !! l' = Some o -> s'' !! l' = Some o) /\
    (forall v s'', set_ViewInfo s' (FieldViewInfo c) v = Some s'' ->
       get_ViewInfo s'' (FieldViewInfo c) = Some v /\
       forall l' o, s !! l' = Some o -> s'' !! l' = Some o) /\
    (forall f s'', set_FileInfo s' (FieldFileInfo c) f = Some s'' ->
       get_FileInfo s'' (FieldFileInfo c) = Some f /\
       forall l' o, s !! l' = Some o -> s'' !! l' = Some o) /\
    (forall m g k v,
       tar.Xattrs (TarHeader (nd_FileInfo d)) = Some m \/
       tar.PAXRecords (TarHeader (nd_FileInfo d)) = Some m ->
       s !! m = Some (ObjMap g) ->
       exists s'',
         map_assign (Some m) k v s' = Returns tt s'' /\
         map_lookup s'' (Some m) k = Some v /\
         get_NodeData s'' (Obj l) = Some d /\
         get_NodeData s'' (Obj c) = Some d).
Proof.
  intros Hd.
  pose proof (proj1 (get_NodeData_Obj s l d) Hd) as Hl.
  pose proof (lookup_lt_Some _ _ _ Hl) as Hlt.
  set (s' := s ++ [ObjViewInfo (nd_ViewInfo d); ObjFileInfo (nd_FileInfo d);
                   ObjNodeData d]).
  assert (s' !! (length s + 2)%nat = Some (ObjNodeData d)) as Hc.
  { unfold s'. by rewrite lookup_app_r, Nat.add_comm, Nat.add_sub by lia. }
  assert (forall l' o, s !! l' = Some o -> s' !! l' = Some o) as Hold.
  { intros l' o Ho. by apply lookup_app_l_Some. }
  assert (forall l' o (s'' : Store),
            (forall j, j <> (length s + 2)%nat -> s'' !! j = s' !! j) ->
            s !! l' = Some o -> s'' !! l' = Some o) as Hframe.
  { intros l' o s'' Hs'' Ho. rewrite Hs''; [by apply Hold|].
    apply lookup_lt_Some in Ho. lia. }
  exists (length s + 2)%nat, s'.
  split; [by apply NodeData_Copy_run|].
  split; [lia|].
  split; [apply lookup_ge_None_2; lia|].
  split; [by apply get_NodeData_Obj|].
  split; [done|].
  split; [|split; [|split]].
  - intros d' s'' Hset. split.
    + unfold set_NodeData in Hset. simpl in Hset. rewrite Hc in Hset.
      injection Hset as <-. simpl.
      by rewrite list_lookup_insert_eq by by eapply lookup_lt_Some.
    + intros l' o. apply Hframe. intros j Hj.
      apply (set_NodeData_frame _ _ _ _ _ Hset). simpl. congruence.
  - intros v s'' Hset. split.
    + simpl in Hset. rewrite Hc in Hset. injection Hset as <-. simpl.
      by rewrite list_lookup_insert_eq by by eapply lookup_lt_Some.
    + intros l' o. apply Hframe. intros j Hj.
      apply (set_ViewInfo_frame _ _ _ _ _ Hset). simpl. congruence.
  - intros f s'' Hset. split.
    + simpl in Hset. rewrite Hc in Hset. injection Hset as <-. simpl.
      by rewrite list_lookup_insert_eq by by eapply lookup_lt_Some.
    + intros l' o. apply Hframe. intros j Hj.
      apply (set_FileInfo_frame _ _ _ _ _ Hset). simpl. congruence.
  - intros m g k v _ Hm.
    pose proof (lookup_lt_Some _ _ _ Hm) as Hmlt.
    destruct (map_assign_lookup s' m g k v (Hold _ _ Hm)) as [Hrun Hread].
    eexists. split; [exact Hrun|]. split; [exact Hread|].
    assert (m <> l) by congruence.
    split; apply get_NodeData_Obj;
      (rewrite list_lookup_insert_ne by lia); [by apply Hold | done].
Qed.

Lemma NodeData_Copy_fields_witness :
  exists (c : loc) (s' : Store),
    NodeData_Copy sample_viper (Obj 1) sample_Store = Returns (Obj c) s' /\
    c <> 1%nat /\
    get_NodeData s' (Obj c) = Some sample_NodeData.
Proof.
  destruct (NodeData_Copy_fields sample_viper sample_Store 1 sample_NodeData
              eq_refl) as (c & s' & Hrun & Hc & _ & Hcopy & _).
  exists c, s'. split; [exact Hrun|]. split; [exact Hc | exact Hcopy].
Defined.

(** The copy of the sample node is in cell 4, after the two structs that
    the Copy methods of its fields allocated. *)
Example NodeData_Copy_sample :
  NodeData_Copy sample_viper (Obj 1) sample_Store
  = Returns (Obj 4)
      (sample_Store ++
       [ObjViewInfo (nd_ViewInfo sample_NodeData);
        ObjFileInfo (nd_FileInfo sample_NodeData);
        ObjNodeData sample_NodeData]).
Proof. reflexivity. Qed.

(** C9, as stated, fails: the copy shares the maps of the tar header with
    the source. The node in cell 1 of the sample store reads "v" at
    "user.k" in its extended attributes. Copy it, and write "w" at "user.k"
    through the [Xattrs] of the copy's header: the source node, whose
    struct has not changed, now reads "w" there. *)
Lemma NodeData_Copy_shares_maps :
  get_NodeData sample_Store (Obj 1) = Some sample_NodeData /\
  map_lookup sample_Store
    (tar.Xattrs (TarHeader (nd_FileInfo sample_NodeData))) "user.k"
  = Some "v" /\
  exists (c : loc) (s1 s2 : Store) (copy : NodeData),
    NodeData_Copy sample_viper (Obj 1) sample_Store = Returns (Obj c) s1 /\
    get_NodeData s1 (Obj c) = Some copy /\
    map_assign (tar.Xattrs (TarHeader (nd_FileInfo copy))) "user.k" "w" s1
    = Returns tt s2 /\
    get_NodeData s2 (Obj 1) = Some sample_NodeData /\
    map_lookup s2
      (tar.Xattrs (TarHeader (nd_FileInfo sample_NodeData))) "user.k"
    = Some "w".
Proof.
  split; [reflexivity|]. split; [reflexivity|].
  eexists _, _, _, _.
  split; [reflexivity|]. split; [reflexivity|].
  split; [reflexivity|]. split; reflexivity.
Qed.

(** * Further properties *)

(** ** Folding statuses *)

Lemma mergeAll_Changed (l : list DiffType) : mergeAll Changed l = Changed.
Proof.
  induction l as [|c l IH]; [done|].
  unfold mergeAll in *. simpl. by rewrite merge_Changed_l.
Qed.

Lemma mergeAll_cons (init c : DiffType) (l : list DiffType) :
  mergeAll init (c :: l) = mergeAll (merge init c) l.
Proof. reflexivity. Qed.

Lemma mergeAll_decide (init : DiffType) (l : list DiffType) :
  mergeAll init l
  = if bool_decide (Forall (fun c => c = init) l) then init else Changed.
Proof.
  induction l as [|c l IH]; [done|].
  rewrite mergeAll_cons.
  destruct (decide (c = init)) as [->|Hne].
  - rewrite merge_same, IH.
    case_bool_decide as H1; case_bool_decide as H2; try done; exfalso.
    + apply H2. by constructor.
    + apply H1. by inversion H2.
  - rewrite merge_differ, mergeAll_Changed by done.
    rewrite bool_decide_eq_false_2; [done|].
    intros Hall. by inversion Hall.
Qed.

(** X1. The fold of the statuses of children from a starting status is
    that status when every child has it, and [Changed] as soon as one child
    differs from it, wherever that child is in the list. *)
Theorem mergeAll_unanimous_or_Changed (init : DiffType) (l : list DiffType) :
  (Forall (fun c => c = init) l -> mergeAll init l = init) /\
  (Exists (fun c => c <> init) l -> mergeAll init l = Changed).
Proof.
  rewrite mergeAll_decide. split.
  - intros Hall. by rewrite bool_decide_eq_true_2.
  - intros Hex. rewrite bool_decide_eq_false_2; [done|].
    intros Hall. apply Exists_exists in Hex as (c & Hc & Hne).
    rewrite Forall_forall in Hall. exact (Hne (Hall c Hc)).
Qed.

Lemma mergeAll_unanimous_or_Changed_witness :
  mergeAll Added [Added; Added] = Added /\
  mergeAll Removed [Removed; Removed; Unchanged; Removed] = Changed.
Proof.
  split.
  - apply (proj1 (mergeAll_unanimous_or_Changed Added [Added; Added])).
    by repeat constructor.
  - apply (proj2 (mergeAll_unanimous_or_Changed Removed
                    [Removed; Removed; Unchanged; Removed])).
    do 2 apply Exists_cons_tl. by apply Exists_cons_hd.
Defined.

(** X2. [merge] gives a status other than [Changed] only when both of its
    arguments are that status, and so does the fold: a result [Added],
    [Removed] or [Unchanged] means that the starting status and every child
    were that. *)
Theorem merge_not_Changed_unanimous (x : DiffType) :
  x <> Changed ->
  (forall a b, merge a b = x -> a = x /\ b = x) /\
  (forall init l, mergeAll init l = x -> init = x /\ Forall (fun c => c = x) l).
Proof.
  intros Hx. split.
  - intros a b. unfold merge.
    destruct (Z.eqb_spec a b) as [->|]; [done|]. by intros <-.
  - intros init l. rewrite mergeAll_decide.
    case_bool_decide as Hall; [|by intros <-].
    intros ->. split; [done|]. eapply Forall_impl; [exact Hall|done].
Qed.

Lemma merge_not_Changed_unanimous_witness :
  Added = Added /\ Forall (fun c => c = Added) [Added; Added].
Proof.
  apply (proj2 (merge_not_Changed_unanimous Added ltac:(discriminate))
           Added [Added; Added]).
  reflexivity.
Defined.

(** ** DiffType.String *)

Lemma named_cases (d : DiffType) :
  named d <-> d = Unchanged \/ d = Changed \/ d = Added \/ d = Removed.
Proof. unfold named. rewrite !elem_of_cons, elem_of_nil. tauto. Qed.

(** The names of the named values, the numeral of the others. *)
Lemma DiffType_String_named_label (d : DiffType) :
  named d -> DiffType_String d ∈ labels.
Proof.
  rewrite named_cases. unfold labels.
  intros [-> | [-> | [-> | ->]]]; rewrite !elem_of_cons; simpl; tauto.
Qed.

Lemma DiffType_String_unnamed (d : DiffType) :
  ~ named d -> DiffType_String d = pretty d.
Proof.
  rewrite named_cases. intros Hd. unfold DiffType_String.
  destruct (Z.eqb_spec d Unchanged); [exfalso; auto|].
  destruct (Z.eqb_spec d Changed); [exfalso; auto|].
  destruct (Z.eqb_spec d Added); [exfalso; auto|].
  destruct (Z.eqb_spec d Removed); [exfalso; auto 6|]. done.
Qed.

Lemma numeral_head_digit (x : N) (s : string) :
  numeral_head (String (pretty_N_char x) s) = true.
Proof. unfold pretty_N_char. by repeat case_match. Qed.

Lemma numeral_head_pretty_N_go (x : N) :
  forall s, numeral_head s = true -> numeral_head (pretty_N_go x s) = true.
Proof.
  induction (N.lt_wf_0 x) as [x _ IH]; intros s Hs.
  destruct (decide (x = 0)%N) as [->|Hx]; [done|].
  rewrite pretty_N_go_step by lia.
  apply IH; [apply N.div_lt; lia | apply numeral_head_digit].
Qed.

(** A numeral starts with a digit or a minus sign. *)
Lemma numeral_head_pretty (z : Z) : numeral_head (pretty z) = true.
Proof.
  assert (forall p : positive, numeral_head (pretty p) = true) as Hpos.
  { intros p. unfold pretty, pretty_positive, pretty, pretty_N.
    rewrite decide_False by done.
    rewrite pretty_N_go_step by lia.
    apply numeral_head_pretty_N_go, numeral_head_digit. }
  destruct z as [|p|p]; [done|apply Hpos|done].
Qed.

Lemma numeral_head_labels (s : string) :
  s ∈ labels -> numeral_head s = false.
Proof.
  unfold labels. rewrite !elem_of_cons, elem_of_nil.
  by intros [-> | [-> | [-> | [-> | []]]]].
Qed.

(** X3. [String] gives one of the four names exactly for the four named
    values; every other value, negative ones too, reads as a decimal
    numeral, which is none of the names. *)
Theorem DiffType_String_label_iff_named (d : DiffType) :
  (DiffType_String d ∈ labels <-> named d) /\
  (~ named d -> DiffType_String d = pretty d /\
                numeral_head (DiffType_String d) = true).
Proof.
  assert (~ named d -> DiffType_String d = pretty d /\
                       numeral_head (DiffType_String d) = true) as Hun.
  { intros Hd. rewrite DiffType_String_unnamed by done.
    split; [done | apply numeral_head_pretty]. }
  split; [|done]. split; [|apply DiffType_String_named_label].
  intros Hl. destruct (decide (named d)) as [|Hd]; [done|].
  apply numeral_head_labels in Hl. destruct (Hun Hd) as [_ Hn]. congruence.
Qed.

Lemma DiffType_String_label_iff_named_witness :
  DiffType_String (-12) = "-12" /\ numeral_head (DiffType_String (-12)) = true.
Proof.
  apply (proj2 (DiffType_String_label_iff_named (-12))).
  rewrite named_cases. unfold Unchanged, Changed, Added, Removed. lia.
Defined.

(** X4. [String] is injective: two distinct [DiffType] values, named or
    not, never read the same. *)
Theorem DiffType_String_inj (a b : DiffType) :
  DiffType_String a = DiffType_String b -> a = b.
Proof.
  intros Heq.
  destruct (decide (named a)) as [Ha|Ha], (decide (named b)) as [Hb|Hb].
  - apply named_cases in Ha, Hb.
    destruct Ha as [-> | [-> | [-> | ->]]], Hb as [-> | [-> | [-> | ->]]];
      done || discriminate Heq.
  - apply DiffType_String_named_label, numeral_head_labels in Ha.
    rewrite Heq, (DiffType_String_unnamed b), numeral_head_pretty in Ha
      by done.
    discriminate.
  - apply DiffType_String_named_label, numeral_head_labels in Hb.
    rewrite <- Heq, (DiffType_String_unnamed a), numeral_head_pretty in Hb
      by done.
    discriminate.
  - rewrite !DiffType_String_unnamed in Heq by done.
    by apply (inj pretty).
Qed.

Lemma DiffType_String_inj_witness : (7 : DiffType) = 7.
Proof. apply (DiffType_String_inj 7 7). reflexivity. Defined.

(** A fold from a named status is that status or [Changed]. *)
Lemma mergeAll_init_or_Changed (init : DiffType) (l : list DiffType) :
  mergeAll init l = init \/ mergeAll init l = Changed.
Proof. rewrite mergeAll_decide. case_bool_decide; auto. Qed.

(** X5. A fold that starts from a named status ends in a named status,
    whatever the statuses of the children, also ones without a name: so
    [String] of the result is one of the four names, not a numeral. *)
Theorem mergeAll_named (init : DiffType) (l : list DiffType) :
  named init ->
  named (mergeAll init l) /\ DiffType_String (mergeAll init l) ∈ labels.
Proof.
  intros Hinit.
  assert (named (mergeAll init l)) as Hn.
  { destruct (mergeAll_init_or_Changed init l) as [-> | ->]; [done|].
    apply named_cases. auto. }
  split; [done | by apply DiffType_String_named_label].
Qed.

Lemma mergeAll_named_witness :
  named (mergeAll Added [Added; 42]) /\
  DiffType_String (mergeAll Added [Added; 42]) ∈ labels.
Proof.
  apply (mergeAll_named Added [Added; 42]).
  apply named_cases. auto.
Defined.

(** ** Compare as a relation *)

Lemma Byte_eqb_sym (x y : byte) : Byte.eqb x y = Byte.eqb y x.
Proof.
  destruct (Byte.eqb x y) eqn:E1, (Byte.eqb y x) eqn:E2; try done.
  - apply Byte.byte_dec_bl in E1 as ->.
    by rewrite (Byte.byte_dec_lb eq_refl) in E2.
  - apply Byte.byte_dec_bl in E2 as ->.
    by rewrite (Byte.byte_dec_lb eq_refl) in E1.
Qed.

(** [Compare] is [Unchanged] exactly for equal type flags and hashes. *)
Lemma Compare_Unchanged_iff (a b : FileInfo) :
  Compare a b = Unchanged <-> TypeFlag a = TypeFlag b /\ hash a = hash b.
Proof.
  unfold Compare. split.
  - destruct (Byte.eqb (TypeFlag a) (TypeFlag b)) eqn:Et; [|done].
    destruct (Z.eqb_spec (hash a) (hash b)); [|done].
    by apply Byte.byte_dec_bl in Et.
  - intros [Ht ->]. by rewrite (Byte.byte_dec_lb Ht), Z.eqb_refl.
Qed.

(** X6. [Compare] does not depend on which entry is the receiver:
    [a.Compare(b)] and [b.Compare(a)] are the same status. *)
Theorem Compare_sym (a b : FileInfo) : Compare a b = Compare b a.
Proof.
  unfold Compare. rewrite (Byte_eqb_sym (TypeFlag a)), (Z.eqb_sym (hash a)).
  done.
Qed.

(** X7. Entries that compare [Unchanged] stand for each other: an entry
    compares [Unchanged] with itself, and when [a] and [b] compare
    [Unchanged], every entry [c] compares with [a] as it does with [b]. So
    comparing [Unchanged] is an equivalence on entries. *)
Theorem Compare_Unchanged_congruence (a b : FileInfo) :
  Compare a a = Unchanged /\
  (Compare a b = Unchanged ->
   forall c, Compare a c = Compare b c /\ Compare c a = Compare c b).
Proof.
  split; [apply Compare_refl|].
  intros [Ht Hh]%Compare_Unchanged_iff c.
  unfold Compare. by rewrite Ht, Hh.
Qed.

Lemma Compare_Unchanged_congruence_witness :
  Compare
    {| Path := "/a"; TypeFlag := tar.TypeReg; hash := 7;
       TarHeader := zero_Header |}
    {| Path := "/c"; TypeFlag := tar.TypeSymlink; hash := 7;
       TarHeader := zero_Header |}
  = Compare
      {| Path := "/b"; TypeFlag := tar.TypeReg; hash := 7;
         TarHeader := sample_Header tar.TypeReg 5 0 None |}
      {| Path := "/c"; TypeFlag := tar.TypeSymlink; hash := 7;
         TarHeader := zero_Header |}.
Proof.
  apply (proj2 (Compare_Unchanged_congruence
                  {| Path := "/a"; TypeFlag := tar.TypeReg; hash := 7;
                     TarHeader := zero_Header |}
                  {| Path := "/b"; TypeFlag := tar.TypeReg; hash := 7;
                     TarHeader := sample_Header tar.TypeReg 5 0 None |})).
  reflexivity.
Defined.

(** ** Compare on copies and on entries of the same content *)

(** X8. A copy compares [Unchanged] with its source: after [FileInfo.Copy]
    the new entry and the entry it was copied from compare [Unchanged] in
    both directions, and so do the entries of a node and of its
    [NodeData.Copy]. *)
Theorem Compare_Copy_Unchanged viper (s : Store) :
  (forall p f, get_FileInfo s p = Some f ->
     exists c s' f',
       FileInfo_Copy p s = Returns (Obj c) s' /\
       get_FileInfo s' (Obj c) = Some f' /\
       Compare f f' = Unchanged /\ Compare f' f = Unchanged) /\
  (forall l d, get_NodeData s (Obj l) = Some d ->
     exists c s' d',
       NodeData_Copy viper (Obj l) s = Returns (Obj c) s' /\
       get_NodeData s' (Obj c) = Some d' /\
       Compare (nd_FileInfo d) (nd_FileInfo d') = Unchanged /\
       Compare (nd_FileInfo d') (nd_FileInfo d) = Unchanged).
Proof.
  split.
  - intros p f Hf. exists (length s), (s ++ [ObjFileInfo f]), f.
    split; [by apply FileInfo_Copy_run|].
    split; [simpl; by rewrite list_lookup_middle|].
    split; apply Compare_refl.
  - intros l d Hd. eexists _, _, d.
    split; [by apply NodeData_Copy_run|].
    split; [|split; apply Compare_refl].
    apply get_NodeData_Obj.
    by rewrite lookup_app_r, Nat.add_comm, Nat.add_sub by lia.
Qed.

Lemma Compare_Copy_Unchanged_witness :
  exists c s' d',
    NodeData_Copy sample_viper (Obj 1) sample_Store = Returns (Obj c) s' /\
    get_NodeData s' (Obj c) = Some d' /\
    Compare (nd_FileInfo sample_NodeData) (nd_FileInfo d') = Unchanged /\
    Compare (nd_FileInfo d') (nd_FileInfo sample_NodeData) = Unchanged.
Proof.
  exact (proj2 (Compare_Copy_Unchanged sample_viper sample_Store) 1%nat
           sample_NodeData eq_refl).
Defined.

(** ** NewFileInfo on whole streams *)

Section Streams.

Context {D : Type} `{Hash64 D}.

(** Every chunk of a run has a byte at least, so a stream of [n] bytes is
    read in at most [n] chunks. *)
Lemma reads_length {R : Type} `{Reader R} chunk (r : R) ds r' :
  reads chunk r ds r' -> (length ds <= length (concat ds))%nat.
Proof.
  induction 1 as [r|r r1 d e ds r' _ Hd _ _ _ IH]; [done|].
  simpl. rewrite length_app. destruct d; [done|]. simpl. lia.
Qed.

(** A stream that holds [S] is hashed within [length S + 1] reads. *)
Lemma getHashFromReader_delivers_fuel {R : Type} `{Reader R}
    chunk (r : R) (S : list byte) r' fuel :
  Hash64_streaming D -> 0 <= chunk -> delivers chunk r S r' ->
  (length S < fuel)%nat ->
  getHashFromReader fuel chunk r
  = Returns (Sum64 (Write New S), uint64 (Z.of_nat (length S))) r'.
Proof.
  intros Hstream Hc (ds & r1 & e & Hreads & <- & HR & He) Hfuel.
  rewrite <- Hstream.
  eapply getHashFromReader_returns; eauto.
  apply reads_length in Hreads. lia.
Qed.

Lemma NewFileInfo_on_stream {R : Type} `{Reader R}
    chunk header path (r : R) (S : list byte) r' fuel :
  Hash64_streaming D ->
  tar.Typeflag header <> tar.TypeDir ->
  0 <= chunk -> delivers chunk r S r' ->
  0 <= tar.Size header < 2 ^ 63 -> Z.of_nat (length S) < 2 ^ 64 ->
  (length S < fuel)%nat ->
  NewFileInfo fuel chunk header path r
  = if Z.of_nat (length S) =? tar.Size header
    then Returns {| Path := path; TypeFlag := tar.Typeflag header;
                    hash := Sum64 (Write New S); TarHeader := header |} r'
    else Panics "" r'.
Proof.
  intros Hstream Hdir Hc Hdel Hsize Hlen Hfuel.
  rewrite NewFileInfo_not_dir by done.
  rewrite (getHashFromReader_delivers_fuel chunk r S r') by done.
  by rewrite !uint64_small by lia.
Qed.

(** X9. For an entry that is not a directory, with a well-formed declared
    size, on a stream that holds the bytes [S]: [NewFileInfo] returns
    exactly when [S] has the declared number of bytes, and then gives the
    entry with the given path, the type flag of the header, the header
    itself and the hash of [S]; otherwise it panics. It needs no more than
    [length S + 1] reads either way. *)
Theorem NewFileInfo_returns_iff_size {R : Type} `{Reader R}
    chunk header path (r : R) (S : list byte) r' fuel :
  Hash64_streaming D ->
  tar.Typeflag header <> tar.TypeDir ->
  0 <= chunk -> delivers chunk r S r' ->
  0 <= tar.Size header < 2 ^ 63 -> Z.of_nat (length S) < 2 ^ 64 ->
  (length S < fuel)%nat ->
  ((exists fi r'', NewFileInfo fuel chunk header path r = Returns fi r'') <->
   Z.of_nat (length S) = tar.Size header) /\
  (forall fi r'',
     NewFileInfo fuel chunk header path r = Returns fi r'' ->
     r'' = r' /\
     fi = {| Path := path; TypeFlag := tar.Typeflag header;
             hash := Sum64 (Write New S); TarHeader := header |}) /\
  (Z.of_nat (length S) <> tar.Size header ->
   NewFileInfo fuel chunk header path r = Panics "" r').
Proof.
  intros Hstream Hdir Hc Hdel Hsize Hlen Hfuel.
  rewrite (NewFileInfo_on_stream chunk header path r S r' fuel) by done.
  destruct (Z.eqb_spec (Z.of_nat (length S)) (tar.Size header)) as [Heq|Hne].
  - split; [split; [done|eauto]|]. split; [|done].
    by intros fi r'' [= <- <-].
  - split; [split; [by intros (fi & r'' & ?)|done]|]. by split.
Qed.

(** X10. Two entries that are not directories, with the same type flag,
    built from streams that hold the same bytes, compare [Unchanged],
    whatever their paths, the rest of their headers, the readers and the
    sizes of the buffers. *)
Theorem Compare_same_content {R1 : Type} `{Reader R1} {R2 : Type} `{Reader R2}
    c1 c2 header1 header2 path1 path2 (r1 r1' : R1) (r2 r2' : R2)
    (S : list byte) fuel1 fuel2 :
  Hash64_streaming D ->
  tar.Typeflag header1 <> tar.TypeDir ->
  tar.Typeflag header1 = tar.Typeflag header2 ->
  0 <= c1 -> 0 <= c2 ->
  delivers c1 r1 S r1' -> delivers c2 r2 S r2' ->
  tar.Size header1 = Z.of_nat (length S) ->
  tar.Size header2 = Z.of_nat (length S) ->
  Z.of_nat (length S) < 2 ^ 63 ->
  (length S < fuel1)%nat -> (length S < fuel2)%nat ->
  exists a b,
    NewFileInfo fuel1 c1 header1 path1 r1 = Returns a r1' /\
    NewFileInfo fuel2 c2 header2 path2 r2 = Returns b r2' /\
    Compare a b = Unchanged.
Proof.
  intros Hstream Hdir Htype Hc1 Hc2 Hd1 Hd2 Hs1 Hs2 Hlen Hf1 Hf2.
  eexists _, _.
  rewrite (NewFileInfo_on_stream c1 header1 path1 r1 S r1' fuel1),
    (NewFileInfo_on_stream c2 header2 path2 r2 S r2' fuel2)
    by (done || congruence || lia).
  rewrite Hs1, Hs2, Z.eqb_refl.
  split; [done|]. split; [done|].
  apply Compare_Unchanged_iff. done.
Qed.

End Streams.

Lemma NewFileInfo_returns_iff_size_witness :
  exists fi r'',
    NewFileInfo (D := xxhash.xxh) 6 2 (sample_Header tar.TypeReg 5 0 None)
      "/etc/passwd" (bytes "hello" : bytesReader)
    = Returns fi r''.
Proof.
  apply (proj1 (NewFileInfo_returns_iff_size (D := xxhash.xxh) 2
                  (sample_Header tar.TypeReg 5 0 None) "/etc/passwd"
                  (bytes "hello" : bytesReader) (bytes "hello")
                  ([] : bytesReader) 6
                  xxhash_streaming ltac:(discriminate) ltac:(done)
                  (bytesReader_delivers 2 (bytes "hello") ltac:(done))
                  ltac:(done) ltac:(done) ltac:(simpl; lia))).
  reflexivity.
Defined.

(** /etc/passwd and a renamed copy with other times, one read from a
    script in chunks of 5, 1 and 5 bytes, one from memory 4 bytes a time. *)
Lemma Compare_same_content_witness :
  exists a b,
    NewFileInfo (D := xxhash.xxh) 12 chuckSize
      (sample_Header tar.TypeReg 11 0 None) "/etc/passwd"
      ([(bytes "hello", None); (bytes " ", None); (bytes "world", None)]
        : script)
    = Returns a [] /\
    NewFileInfo (D := xxhash.xxh) 12 4
      (sample_Header tar.TypeReg 11 1540000000 (Some 0%nat)) "/etc/passwd-"
      (bytes "hello world" : bytesReader)
    = Returns b [] /\
    Compare a b = Unchanged.
Proof.
  apply (Compare_same_content (D := xxhash.xxh) chuckSize 4 _ _ _ _ _ _ _ _
           (bytes "hello world")).
  - exact xxhash_streaming.
  - discriminate.
  - reflexivity.
  - done.
  - done.
  - exists [bytes "hello"; bytes " "; bytes "world"], ([] : script),
      (Some io_EOF).
    split; [|by repeat split].
    do 3 (eapply reads_more; [reflexivity|done|done|done|]).
    apply reads_done.
  - by apply bytesReader_delivers.
  - reflexivity.
  - reflexivity.
  - done.
  - simpl. lia.
  - simpl. lia.
Defined.

(** ** NewFileInfo: errors, and what a returned entry holds *)

Section NewFileInfoMore.

Context {D : Type} `{Hash64 D} {R : Type} `{Reader R}.

(** X11. A read error other than [io.EOF] while the payload of an entry
    that is not a directory is hashed makes [NewFileInfo] panic with that
    error, whatever the declared size and the bytes read so far, also when
    these already are as many as declared; the reader is left as the
    failing read left it. *)
Theorem NewFileInfo_read_error fuel chunk header path (r : R) ds r1 r2 d msg :
  tar.Typeflag header <> tar.TypeDir ->
  0 <= chunk -> reads chunk r ds r1 ->
  Read r1 chunk = (r2, (d, Some (other_error msg))) ->
  (length ds < fuel)%nat ->
  NewFileInfo fuel chunk header path r = Panics msg r2.
Proof.
  intros Hdir Hc Hreads HR Hfuel.
  rewrite NewFileInfo_not_dir by done.
  by rewrite (getHashFromReader_panics fuel chunk r ds r1 r2 d
                (Some (other_error msg))).
Qed.

(** X12. Whatever [NewFileInfo] returns holds the path and the header it
    was given, and its [TypeFlag] is the type flag of its own [TarHeader].
    A returned directory entry has fingerprint 0 and the reader was not
    touched; a returned entry of another type has the hash of the chunks
    read up to a read of no byte, and these chunks have as many bytes as
    the header declares (as [uint64]). *)
Theorem NewFileInfo_returned fuel chunk header path (r r' : R) fi :
  NewFileInfo fuel chunk header path r = Returns fi r' ->
  Path fi = path /\ TarHeader fi = header /\
  TypeFlag fi = tar.Typeflag (TarHeader fi) /\
  (TypeFlag fi = tar.TypeDir -> hash fi = 0 /\ r' = r) /\
  (TypeFlag fi <> tar.TypeDir ->
   exists ds r1 e,
     reads chunk r ds r1 /\ Read r1 chunk = (r', ([], e)) /\
     isFatal e = false /\
     hash fi = Sum64 (fold_left Write ds New) /\
     uint64 (Z.of_nat (length (concat ds))) = uint64 (tar.Size header)).
Proof.
  destruct (Byte.byte_eq_dec (tar.Typeflag header) tar.TypeDir)
    as [Hdir|Hdir].
  - rewrite NewFileInfo_dir by done. intros [= <- <-]. simpl.
    repeat split; done.
  - rewrite NewFileInfo_not_dir by done.
    destruct (getHashFromReader fuel chunk r) as [[fp n] r1|msg r1|] eqn:Hrun;
      [|done..].
    destruct (Z.eqb_spec n (uint64 (tar.Size header))) as [Hn|]; [|done].
    intros [= <- <-]. simpl.
    split; [done|]. split; [done|]. split; [done|]. split; [done|].
    intros _.
    apply getHashFromReader_returned in Hrun
      as (_ & ds & r2 & e & _ & Hreads & HR & He & -> & ->).
    by exists ds, r2, e.
Qed.

(** X13. A negative declared size is never accepted: for an entry that is
    not a directory whose header declares a negative size, on a stream of
    fewer than 2^63 bytes, [NewFileInfo] panics once the stream is read. *)
Theorem NewFileInfo_negative_size fuel chunk header path (r r' : R) S :
  tar.Typeflag header <> tar.TypeDir ->
  0 <= chunk -> delivers chunk r S r' ->
  - 2 ^ 63 <= tar.Size header < 0 -> Z.of_nat (length S) < 2 ^ 63 ->
  (length S < fuel)%nat ->
  NewFileInfo fuel chunk header path r = Panics "" r'.
Proof.
  intros Hdir Hc (ds & r1 & e & Hreads & <- & HR & He) Hsize Hlen Hfuel.
  rewrite NewFileInfo_not_dir by done.
  rewrite (getHashFromReader_returns fuel chunk r ds r1 r' e)
    by (done || apply reads_length in Hreads; lia).
  rewrite (uint64_small (Z.of_nat _)) by lia.
  replace (uint64 (tar.Size header)) with (tar.Size header + 2 ^ 64).
  - by replace (_ =? _) with false by (symmetry; apply Z.eqb_neq; lia).
  - unfold uint64. apply Z.mod_unique with (-1); lia.
Qed.

End NewFileInfoMore.

(** The three declared bytes are read, then the stream fails. *)
Lemma NewFileInfo_read_error_witness :
  NewFileInfo (D := xxhash.xxh) 2 chuckSize
    (sample_Header tar.TypeReg 3 0 None) "/etc/passwd"
    ([(bytes "abc", None); ([], Some (other_error "unexpected EOF"))]
      : script)
  = Panics "unexpected EOF" [].
Proof.
  apply (NewFileInfo_read_error (D := xxhash.xxh) 2 chuckSize _ _ _
           [bytes "abc"]
           ([([], Some (other_error "unexpected EOF"))] : script) _ []).
  - discriminate.
  - done.
  - eapply reads_more; [reflexivity|done|done|done|]. apply reads_done.
  - reflexivity.
  - simpl. lia.
Defined.

Lemma NewFileInfo_returned_witness :
  Path {| Path := "/etc/passwd"; TypeFlag := tar.TypeReg;
          hash := Sum64 (Write New (bytes "abc"));
          TarHeader := sample_Header tar.TypeReg 3 0 None |}
  = "/etc/passwd".
Proof.
  exact (proj1 (NewFileInfo_returned (D := xxhash.xxh) 2 chuckSize
                  (sample_Header tar.TypeReg 3 0 None) "/etc/passwd"
                  (bytes "abc" : bytesReader) ([] : bytesReader) _
                  eq_refl)).
Defined.

Lemma NewFileInfo_negative_size_witness :
  NewFileInfo (D := xxhash.xxh) 4 chuckSize
    (sample_Header tar.TypeReg (-1) 0 None) "/etc/passwd"
    (bytes "abc" : bytesReader)
  = Panics "" [].
Proof.
  apply (NewFileInfo_negative_size (D := xxhash.xxh) 4 chuckSize _ _
           (bytes "abc" : bytesReader) ([] : bytesReader) (bytes "abc")).
  - discriminate.
  - done.
  - by apply bytesReader_delivers.
  - simpl. lia.
  - simpl. lia.
  - simpl. lia.
Defined.

(** ** getHashFromReader on bytes in memory, and with an empty buffer *)

(** X14. Bytes in memory, handed out as many a call as the buffer takes,
    are hashed whole: with a buffer of any size but 0 the hasher returns the
    hash of all the bytes and their number, leaves nothing unread, and
    makes no more than [length S + 1] reads. The hash is taken to be that
    of the bytes written, as xxhash is. *)
Theorem getHashFromReader_in_memory {D : Type} `{Hash64 D}
    (chunk : Z) (S : bytesReader) (fuel : nat) :
  Hash64_streaming D -> 0 < chunk -> (length S < fuel)%nat ->
  getHashFromReader fuel chunk S
  = Returns (Sum64 (Write New S), uint64 (Z.of_nat (length S)))
      ([] : bytesReader).
Proof.
  intros Hstream Hc Hfuel.
  apply getHashFromReader_delivers_fuel; [done|lia| |done].
  by apply bytesReader_delivers.
Qed.

Lemma getHashFromReader_in_memory_witness :
  getHashFromReader (D := xxhash.xxh) 12 3 (bytes "hello world" : bytesReader)
  = Returns (Sum64 (Write New (bytes "hello world")), 11) ([] : bytesReader).
Proof.
  apply (getHashFromReader_in_memory (D := xxhash.xxh) 3
           (bytes "hello world") 12 xxhash_streaming).
  - done.
  - simpl. lia.
Defined.

(** X15. With a buffer of size 0 the hasher makes one read and stops: a
    reader that keeps to the contract of [io.Reader] can give no byte, so
    unless that read fails the hasher returns the hash of no byte and the
    count 0, whatever the stream still holds. [NewFileInfo] then fails
    every entry, directories apart, that declares a size other than 0,
    without having read a byte of it. *)
Theorem getHashFromReader_empty_buffer {D : Type} `{Hash64 D}
    {R : Type} `{Reader R} (fuel : nat) (r r' : R) d e :
  Read r 0 = (r', (d, e)) -> Z.of_nat (length d) <= 0 ->
  isFatal e = false ->
  getHashFromReader (S fuel) 0 r = Returns (Sum64 New, 0) r' /\
  forall header path,
    tar.Typeflag header <> tar.TypeDir ->
    0 < tar.Size header < 2 ^ 63 ->
    NewFileInfo (S fuel) 0 header path r = Panics "" r'.
Proof.
  intros HR Hd He. destruct d; [|simpl in Hd; lia].
  assert (getHashFromReader (S fuel) 0 r = Returns (Sum64 New, 0) r') as Hrun
    by exact (hashLoop_stop fuel 0 New 0 r r' e HR He).
  split; [done|]. intros header path Hdir Hsize.
  rewrite NewFileInfo_not_dir, Hrun, uint64_small by (done || lia).
  by replace (0 =? tar.Size header) with false
    by (symmetry; apply Z.eqb_neq; lia).
Qed.

(** The bytes in memory stay unread. *)
Lemma getHashFromReader_empty_buffer_witness :
  getHashFromReader (D := xxhash.xxh) 1 0 (bytes "hello" : bytesReader)
  = Returns (Sum64 New, 0) (bytes "hello" : bytesReader).
Proof.
  apply (getHashFromReader_empty_buffer (D := xxhash.xxh) 0
           (bytes "hello" : bytesReader) _ [] None).
  - reflexivity.
  - done.
  - reflexivity.
Defined.

(** ** NewNodeData, and the Copy methods on nil, on views and twice *)

(** X16. [ViewInfo.Copy] returns a pointer to a new [ViewInfo] with the
    fields of the source. The configured default that [NewViewInfo] puts
    in it first is overwritten: the copy is the same under every
    configuration. The cells the store had are left as they were, and an
    assignment to the copy leaves the source as it was. *)
Theorem ViewInfo_Copy_value viper (s : Store) (p : pointer) (v : ViewInfo) :
  get_ViewInfo s p = Some v ->
  exists (c : loc) (s' : Store),
    ViewInfo_Copy viper p s = Returns (Obj c) s' /\
    s !! c = None /\
    get_ViewInfo s' (Obj c) = Some v /\
    (forall viper', ViewInfo_Copy viper' p s = Returns (Obj c) s') /\
    (forall l o, s !! l = Some o -> s' !! l = Some o) /\
    (forall v' s'', set_ViewInfo s' (Obj c) v' = Some s'' ->
       get_ViewInfo s'' (Obj c) = Some v' /\ get_ViewInfo s'' p = Some v).
Proof.
  intros Hv. exists (length s), (s ++ [ObjViewInfo v]).
  split; [by apply ViewInfo_Copy_run|].
  split; [by apply lookup_ge_None_2|].
  split; [simpl; by rewrite list_lookup_middle|].
  split; [intros viper'; by apply ViewInfo_Copy_run|].
  split; [intros l o Ho; by apply lookup_app_l_Some|].
  intros v' s'' Hset. simpl in Hset.
  rewrite list_lookup_middle in Hset by done. injection Hset as <-.
  rewrite insert_app_r_alt, Nat.sub_diag by done. simpl.
  split; [by rewrite list_lookup_middle|].
  by apply get_ViewInfo_app.
Qed.

Lemma ViewInfo_Copy_value_witness :
  exists (c : loc) (s' : Store),
    ViewInfo_Copy sample_viper (FieldViewInfo 1) sample_Store
    = Returns (Obj c) s' /\
    sample_Store !! c = None /\
    get_ViewInfo s' (Obj c) = Some {| Collapsed := true; Hidden := false |}.
Proof.
  destruct (ViewInfo_Copy_value sample_viper sample_Store (FieldViewInfo 1)
              {| Collapsed := true; Hidden := false |} eq_refl)
    as (c & s' & Hrun & Hc & Hget & _).
  by exists c, s'.
Defined.

(** X17. [NodeData.Copy] and [ViewInfo.Copy] have no check for [nil], as
    [FileInfo.Copy] has: on a [nil] receiver they panic with a nil
    dereference and return nothing. [NodeData.Copy] panics before it
    allocates; [ViewInfo.Copy] has allocated the new [ViewInfo] by then,
    and the cells the store had are as they were. *)
Theorem Copy_nil_panics viper (s : Store) :
  NodeData_Copy viper Nil s = Panics nil_dereference s /\
  exists s',
    ViewInfo_Copy viper Nil s = Panics nil_dereference s' /\
    forall l o, s !! l = Some o -> s' !! l = Some o.
Proof.
  split; [done|]. eexists. split; [reflexivity|].
  intros l o Ho. by apply lookup_app_l_Some.
Qed.

(** X18. [NewNodeData] never fails: it returns a pointer to a new node
    that is [Unchanged], not hidden, collapsed as the configuration says,
    and whose entry is the zero [FileInfo], with no map in its header. The
    cells the store had are left as they were, and a second call gives
    another node and leaves the first as it is. *)
Theorem NewNodeData_fresh viper (s : Store) :
  exists (c : loc) (s' : Store) (c2 : loc) (s2 : Store),
    NewNodeData viper s = Returns (Obj c) s' /\
    s !! c = None /\
    get_NodeData s' (Obj c)
    = Some {| nd_ViewInfo := {| Collapsed := viper "filetree.collapse-dir";
                                Hidden := false |};
              nd_FileInfo := zero_FileInfo; nd_DiffType := Unchanged |} /\
    (forall l o, s !! l = Some o -> s' !! l = Some o) /\
    NewNodeData viper s' = Returns (Obj c2) s2 /\
    c2 <> c /\
    get_NodeData s2 (Obj c2) = get_NodeData s2 (Obj c) /\
    get_NodeData s2 (Obj c) = get_NodeData s' (Obj c).
Proof.
  eexists _, _, _, _.
  split; [apply NewNodeData_run|].
  split; [apply lookup_ge_None_2; lia|].
  split; [simpl; by rewrite lookup_app_r, Nat.add_comm, Nat.add_sub by lia|].
  split; [intros l o Ho; by apply lookup_app_l_Some|].
  split; [apply NewNodeData_run|].
  split; [rewrite length_app; simpl; lia|].
  assert (forall s0 : Store, forall x y : object,
            (s0 ++ [x; y]) !! (length s0 + 1)%nat = Some y) as Hlast.
  { intros s0 x y. by rewrite lookup_app_r, Nat.add_comm, Nat.add_sub by lia. }
  split; simpl.
  - rewrite Hlast. rewrite lookup_app_l by (rewrite length_app; simpl; lia).
    by rewrite Hlast.
  - rewrite lookup_app_l by (rewrite length_app; simpl; lia). done.
Qed.

(** X19. A copy can be copied: the copy of a copy of a node is a third
    node, in a cell of its own, and the three nodes are field for field
    equal; the second [Copy] changes neither the source nor the first
    copy. *)
Theorem NodeData_Copy_twice viper (s : Store) (l : loc) (d : NodeData) :
  get_NodeData s (Obj l) = Some d ->
  exists (c1 : loc) (s1 : Store) (c2 : loc) (s2 : Store),
    NodeData_Copy viper (Obj l) s = Returns (Obj c1) s1 /\
    NodeData_Copy viper (Obj c1) s1 = Returns (Obj c2) s2 /\
    l <> c1 /\ l <> c2 /\ c1 <> c2 /\
    get_NodeData s2 (Obj l) = Some d /\
    get_NodeData s2 (Obj c1) = Some d /\
    get_NodeData s2 (Obj c2) = Some d.
Proof.
  intros Hd.
  pose proof (proj1 (get_NodeData_Obj s l d) Hd) as Hl.
  pose proof (lookup_lt_Some _ _ _ Hl) as Hlt.
  set (s1 := s ++ [ObjViewInfo (nd_ViewInfo d); ObjFileInfo (nd_FileInfo d);
                   ObjNodeData d]).
  assert (length s1 = (length s + 3)%nat) as Hlen1
    by (unfold s1; rewrite length_app; simpl; lia).
  assert (get_NodeData s1 (Obj (length s + 2)) = Some d) as Hc1.
  { apply get_NodeData_Obj. unfold s1.
    by rewrite lookup_app_r, Nat.add_comm, Nat.add_sub by lia. }
  eexists (length s + 2)%nat, s1, (length s1 + 2)%nat, _.
  split; [by apply NodeData_Copy_run|].
  split; [by apply NodeData_Copy_run|].
  split; [lia|]. split; [lia|]. split; [lia|].
  split; [by do 2 apply get_NodeData_app|].
  split; [by apply get_NodeData_app|].
  apply get_NodeData_Obj.
  by rewrite lookup_app_r, Nat.add_comm, Nat.add_sub by lia.
Qed.

Lemma NodeData_Copy_twice_witness :
  exists (c1 : loc) (s1 : Store) (c2 : loc) (s2 : Store),
    NodeData_Copy sample_viper (Obj 1) sample_Store = Returns (Obj c1) s1 /\
    NodeData_Copy sample_viper (Obj c1) s1 = Returns (Obj c2) s2 /\
    c1 <> c2 /\
    get_NodeData s2 (Obj c2) = Some sample_NodeData.
Proof.
  destruct (NodeData_Copy_twice sample_viper sample_Store 1 sample_NodeData
              eq_refl)
    as (c1 & s1 & c2 & s2 & Hrun1 & Hrun2 & _ & _ & Hne & _ & _ & Hget).
  by exists c1, s1, c2, s2.
Defined.

(** ** A last chunk that comes with io.EOF *)

Lemma reads_app {R : Type} `{Reader R} chunk (r r1 r2 : R) ds ds' :
  reads chunk r ds r1 -> reads chunk r1 ds' r2 -> reads chunk r (ds ++ ds') r2.
Proof.
  induction 1 as [r|r r0 d e ds r1 HR Hd Hlen He _ IH]; intros Hrest;
    [done|].
  simpl. eapply reads_more; eauto.
Qed.

(** X20. [io.EOF] alone does not end the loop, and bytes that come with
    it are not dropped: when a read gives its bytes together with
    [io.EOF], they are hashed and counted like any other chunk, and the
    hasher reads once more; it returns when that read gives no byte. *)
Theorem getHashFromReader_data_with_EOF {D : Type} `{Hash64 D}
    {R : Type} `{Reader R} fuel chunk (r r1 r2 r3 : R) ds d e :
  0 <= chunk -> reads chunk r ds r1 ->
  Read r1 chunk = (r2, (d, Some io_EOF)) ->
  d <> [] -> Z.of_nat (length d) <= chunk ->
  Read r2 chunk = (r3, ([], e)) -> isFatal e = false ->
  (getHashFromReader (S (length ds)) chunk r = OutOfFuel) /\
  ((length ds + 1 < fuel)%nat ->
   getHashFromReader fuel chunk r
   = Returns (Sum64 (Write (fold_left Write ds New) d),
              uint64 (Z.of_nat (length (concat ds) + length d))) r3).
Proof.
  intros Hc Hreads HR Hd Hlen HR' He.
  assert (reads chunk r (ds ++ [d]) r2) as Hall.
  { eapply reads_app; [exact Hreads|].
    eapply reads_more; [exact HR|done|done|done|apply reads_done]. }
  split.
  - unfold getHashFromReader. apply Z.ltb_ge in Hc as ->.
    apply (hashLoop_reads_fuel _ _ _ _ Hall).
    rewrite length_app. simpl. lia.
  - intros Hfuel.
    rewrite (getHashFromReader_returns fuel chunk r (ds ++ [d]) r2 r3 e)
      by (done || rewrite length_app; simpl; lia).
    rewrite fold_left_app, concat_app, length_app. simpl.
    by rewrite app_nil_r.
Qed.

Lemma getHashFromReader_data_with_EOF_witness :
  getHashFromReader (D := xxhash.xxh) 3 chuckSize
    ([(bytes "abc", None); (bytes "de", Some io_EOF)] : script)
  = Returns (Sum64 (Write (Write New (bytes "abc")) (bytes "de")), 5) [].
Proof.
  apply (proj2 (getHashFromReader_data_with_EOF (D := xxhash.xxh) 3 chuckSize
                  ([(bytes "abc", None); (bytes "de", Some io_EOF)] : script)
                  ([(bytes "de", Some io_EOF)] : script) ([] : script)
                  ([] : script) [bytes "abc"] (bytes "de") (Some io_EOF)
                  ltac:(done)
                  ltac:(eapply reads_more;
                          [reflexivity|done|done|done|apply reads_done])
                  eq_refl ltac:(done) ltac:(done) eq_refl eq_refl)).
  simpl. lia.
Defined.
